(** * SettleInvoicing: the invoice registry contract

    A shallow embedding of [contracts/SettleInvoicing.sol] (Solidity ^0.8.20)
    and of the part of the EVM call discipline the contract relies on:
    checked [uint256] arithmetic, [require] reverting the whole call, revert
    discarding every storage write and every log of the reverted call, and an
    external call handing control to code that may call back into the
    registry before it returns. *)

From Stdlib Require Import NArith String List Lia.
From stdpp Require Import gmap strings list fin_maps.

Local Open Scope string_scope.
Local Open Scope list_scope.
Local Open Scope N_scope.

(** ** Data model *)

(** Solidity [address] (160 bits) and [uint256], as natural numbers. *)
Definition address : Type := N.
Definition uint256 : Type := N.

Definition MAX_UINT256 : uint256 := 2 ^ 256 - 1.

(** [address(0)] *)
Definition address_zero : address := 0.

(** [struct Invoice] *)
Record Invoice : Type := mkInvoice {
  freelancer : address;
  client : address;
  amount : uint256;
  dueDate : uint256;
  isPaid : bool;
  invoiceURI : string
}.

(** The value every key of a Solidity mapping holds before it is written. *)
Definition zeroInvoice : Invoice :=
  {| freelancer := address_zero; client := address_zero; amount := 0;
     dueDate := 0; isPaid := false; invoiceURI := "" |}.

Definition with_isPaid (b : bool) (inv : Invoice) : Invoice :=
  {| freelancer := freelancer inv; client := client inv; amount := amount inv;
     dueDate := dueDate inv; isPaid := b; invoiceURI := invoiceURI inv |}.

Definition with_client (a : address) (inv : Invoice) : Invoice :=
  {| freelancer := freelancer inv; client := a; amount := amount inv;
     dueDate := dueDate inv; isPaid := isPaid inv; invoiceURI := invoiceURI inv |}.

(** [event InvoiceCreated], [event InvoicePaid] *)
Inductive Event : Type :=
| InvoiceCreated (id : uint256) (freelancer : address) (amount : uint256)
| InvoicePaid (id : uint256) (client : address).

(** The contract's storage ([invoices], [invoiceCount]) together with the
    logs emitted so far: everything a revert rolls back. *)
Record Machine : Type := mkMachine {
  invoices : gmap N Invoice;
  invoiceCount : uint256;
  logs : list Event
}.

(** Reading [invoices[_id]]: an unwritten key reads as the zero record. *)
Definition invoice_at (m : Machine) (_id : uint256) : Invoice :=
  default zeroInvoice (invoices m !! _id).

(** ** Reverts *)

Inductive Revert : Type :=
| Error (reason : string)   (* a failed [require(cond, reason)] *)
| Panic (code : N).         (* compiler-inserted check; 0x11 is overflow *)

(** The three failures of [payInvoice], by the names the specification uses. *)
Definition AlreadyPaid : Revert := Error "Invoice already paid".
Definition NotFound : Revert := Error "Invoice does not exist".
Definition TransferRejected : Revert :=
  Error "USDC transfer failed. Check allowance.".
Definition Overflow : Revert := Panic 17.

(** ** What an execution leaves behind besides state

    The calls that cross the contract boundary, in order. Unlike [logs] the
    trace is not rolled back: it records what was attempted. *)
Inductive TraceItem : Type :=
| TransferFromCall (token sender recipient : address) (amount : uint256)
| ReentrantRegister (sender : address) (result : Revert + uint256)
| ReentrantPay (sender : address) (_id : uint256) (token : address)
               (result : option Revert).

(** ** The execution monad: state, revert, trace *)

Inductive Result (A : Type) : Type :=
| Ok (a : A) (m : Machine)
| Reverted (r : Revert).
Arguments Ok {A} a m.
Arguments Reverted {A} r.

Definition Exec (A : Type) : Type := Machine -> Result A * list TraceItem.

Definition ret {A} (a : A) : Exec A := fun m => (Ok a m, []).

Definition bind {A B} (x : Exec A) (f : A -> Exec B) : Exec B :=
  fun m =>
    match x m with
    | (Ok a m1, t1) => let (r, t2) := f a m1 in (r, t1 ++ t2)
    | (Reverted r, t1) => (Reverted r, t1)
    end.

Declare Scope exec_scope.
Delimit Scope exec_scope with exec.
Notation "'let*' x ':=' c 'in' k" := (bind c (fun x => k))
  (at level 10, x name, c at level 100, k at level 200) : exec_scope.
Notation "c ';;' k" := (bind c (fun _ => k))
  (at level 100, k at level 200, right associativity) : exec_scope.
Local Open Scope exec_scope.

Definition revert {A} (r : Revert) : Exec A := fun _ => (Reverted r, []).

(** [require(cond, reason)] *)
Definition require (cond : bool) (reason : string) : Exec unit :=
  if cond then ret tt else revert (Error reason).

(** [emit e] *)
Definition emit (e : Event) : Exec unit :=
  fun m => (Ok tt {| invoices := invoices m; invoiceCount := invoiceCount m;
                     logs := logs m ++ [e] |}, []).

Definition record (i : TraceItem) : Exec unit := fun m => (Ok tt m, [i]).

(** Reading and writing the two storage variables. *)
Definition load_invoiceCount : Exec uint256 :=
  fun m => (Ok (invoiceCount m) m, []).

Definition store_invoiceCount (n : uint256) : Exec unit :=
  fun m => (Ok tt {| invoices := invoices m; invoiceCount := n;
                     logs := logs m |}, []).

Definition load_invoice (_id : uint256) : Exec Invoice :=
  fun m => (Ok (invoice_at m _id) m, []).

Definition store_invoice (_id : uint256) (inv : Invoice) : Exec unit :=
  fun m => (Ok tt {| invoices := <[_id := inv]> (invoices m);
                     invoiceCount := invoiceCount m; logs := logs m |}, []).

(** A write through a storage pointer [Invoice storage inv = invoices[_id]]:
    only the assigned member of the slot changes. *)
Definition update_invoice (_id : uint256) (f : Invoice -> Invoice) : Exec unit :=
  let* inv := load_invoice _id in store_invoice _id (f inv).

(** [x++] on a [uint256] under Solidity 0.8: reverts with Panic(0x11) instead
    of wrapping. *)
Definition checked_incr (x : uint256) : Exec uint256 :=
  if x <? MAX_UINT256 then ret (x + 1) else revert Overflow.

(** A call whose revert the caller survives (a low-level call or
    [try]/[catch]): the callee's writes and logs are dropped, the caller
    continues from the state before the call. *)
Definition try {A} (x : Exec A) : Exec (Revert + A) :=
  fun m =>
    match x m with
    | (Ok a m1, t) => (Ok (inr a) m1, t)
    | (Reverted r, t) => (Ok (inl r) m, t)
    end.

(** ** The contract *)

(** [function registerInvoice(uint256 _amount, uint256 _dueDate,
    string memory _uri) public returns (uint256)] *)
Definition registerInvoice (msg_sender : address)
    (_amount _dueDate : uint256) (_uri : string) : Exec uint256 :=
  let* n := load_invoiceCount in
  let* n' := checked_incr n in
  store_invoiceCount n' ;;
  let* id := load_invoiceCount in
  store_invoice id
    {| freelancer := msg_sender; client := address_zero; amount := _amount;
       dueDate := _dueDate; isPaid := false; invoiceURI := _uri |} ;;
  let* id := load_invoiceCount in
  emit (InvoiceCreated id msg_sender _amount) ;;
  load_invoiceCount.

(** A high-level external call
    [IERC20(token).transferFrom(sender, recipient, amount)]: the call is
    noted in the trace and control passes to the code at [token], given here
    as [callee]; if that code reverts, the caller reverts with it. *)
Definition external_transferFrom
    (callee : address -> address -> address -> uint256 -> Exec bool)
    (token sender recipient : address) (amount : uint256) : Exec bool :=
  record (TransferFromCall token sender recipient amount) ;;
  callee token sender recipient amount.

(** [function payInvoice(uint256 _id, address _usdcAddress) public].
    [inv] is a storage pointer, so [inv.freelancer] and [inv.amount] in the
    arguments of the call are read from the slot when the call is made. *)
Definition payInvoice
    (callee : address -> address -> address -> uint256 -> Exec bool)
    (msg_sender : address) (_id : uint256) (_usdcAddress : address)
  : Exec unit :=
  let* inv := load_invoice _id in
  require (negb (isPaid inv)) "Invoice already paid" ;;
  require (0 <? amount inv) "Invoice does not exist" ;;
  update_invoice _id (with_isPaid true) ;;
  update_invoice _id (with_client msg_sender) ;;
  let* inv := load_invoice _id in
  let* success := external_transferFrom callee _usdcAddress msg_sender
                    (freelancer inv) (amount inv) in
  require success "USDC transfer failed. Check allowance." ;;
  emit (InvoicePaid _id msg_sender).

(** [function getInvoice(uint256 _id) public view returns (Invoice memory)] *)
Definition getInvoice (_id : uint256) : Exec Invoice :=
  load_invoice _id.

(** ** The token ledger, as the registry sees it

    [IERC20] only fixes a signature; the code behind [_usdcAddress] is
    arbitrary. One invocation of [transferFrom] is a finite script: it may
    call back into the registry any number of times (as any sender, since it
    may route the call through other contracts), look at what each call
    returned, and finally return a boolean or revert. What the ledger does to
    its own balances is invisible to the registry and is not modelled. *)
Inductive Ledger : Type :=
| Return (success : bool)
| Throw (r : Revert)
| ReenterRegister (sender : address) (_amount _dueDate : uint256)
    (_uri : string) (k : Revert + uint256 -> Ledger)
| ReenterPay (sender : address) (_id : uint256) (_usdcAddress : address)
    (world : address -> address -> address -> uint256 -> Ledger)
    (k : option Revert -> Ledger)
| ReenterGet (_id : uint256) (k : Invoice -> Ledger).

(** The code deployed at each address: [w token sender recipient amount] is
    what [IERC20(token).transferFrom(sender, recipient, amount)] will do. *)
Definition World : Type := address -> address -> address -> uint256 -> Ledger.

Definition outcome {A} (r : Revert + A) : option Revert :=
  match r with inl e => Some e | inr _ => None end.

Fixpoint run (L : Ledger) : Exec bool :=
  match L with
  | Return success => ret success
  | Throw r => revert r
  | ReenterRegister sender _amount _dueDate _uri k =>
      let* r := try (registerInvoice sender _amount _dueDate _uri) in
      record (ReentrantRegister sender r) ;;
      run (k r)
  | ReenterPay sender _id _usdcAddress world k =>
      let* r := try (payInvoice (fun t s p a => run (world t s p a))
                             sender _id _usdcAddress) in
      record (ReentrantPay sender _id _usdcAddress (outcome r)) ;;
      run (k (outcome r))
  | ReenterGet _id k =>
      let* inv := getInvoice _id in
      run (k inv)
  end.

(** The external call of [payInvoice], resolved against a world. *)
Definition transferFrom (w : World) : address -> address -> address -> uint256 -> Exec bool :=
  fun token sender recipient amount => run (w token sender recipient amount).

(** ** Transactions *)

Inductive Tx : Type :=
| TxRegister (sender : address) (_amount _dueDate : uint256) (_uri : string)
| TxPay (sender : address) (_id : uint256) (_usdcAddress : address) (w : World)
| TxGet (_id : uint256).

(** The state a call leaves: its own on success, the caller's on revert. *)
Definition commit {A} (m : Machine) (r : Result A * list TraceItem) : Machine :=
  match fst r with
  | Ok _ m' => m'
  | Reverted _ => m
  end.

Definition apply (m : Machine) (tx : Tx) : Machine :=
  match tx with
  | TxRegister sender _amount _dueDate _uri =>
      commit m (registerInvoice sender _amount _dueDate _uri m)
  | TxPay sender _id _usdcAddress w =>
      commit m (payInvoice (transferFrom w) sender _id _usdcAddress m)
  | TxGet _id => commit m (getInvoice _id m)
  end.

(** A freshly deployed contract. *)
Definition genesis : Machine :=
  {| invoices := ∅; invoiceCount := 0; logs := [] |}.

Definition replay (txs : list Tx) : Machine := fold_left apply txs genesis.

Definition reachable (m : Machine) : Prop := exists txs, replay txs = m.

(** ** Observations on a machine *)

(** Identifiers carried by the [InvoiceCreated] events of a log, in order. *)
Definition issued (l : list Event) : list uint256 :=
  omap (fun e => match e with
                 | InvoiceCreated id _ _ => Some id
                 | InvoicePaid _ _ => None
                 end) l.

Definition paid_event_of (_id : uint256) (e : Event) : bool :=
  match e with
  | InvoicePaid id _ => id =? _id
  | InvoiceCreated _ _ _ => false
  end.

(** How many [InvoicePaid] events of a log are about [_id]. *)
Definition paid_count (_id : uint256) (l : list Event) : nat :=
  length (List.filter (paid_event_of _id) l).

(** [1; 2; ...; n] *)
Definition ids_upto (n : uint256) : list uint256 :=
  map N.of_nat (seq 1 (N.to_nat n)).

(** ** The two writes of the contract, as state transformers *)

(** The state [registerInvoice] leaves when it does not revert. *)
Definition registered (m : Machine) (msg_sender : address)
    (_amount _dueDate : uint256) (_uri : string) : Machine :=
  {| invoices :=
       <[invoiceCount m + 1 :=
           {| freelancer := msg_sender; client := address_zero;
              amount := _amount; dueDate := _dueDate; isPaid := false;
              invoiceURI := _uri |}]> (invoices m);
     invoiceCount := invoiceCount m + 1;
     logs := logs m ++ [InvoiceCreated (invoiceCount m + 1) msg_sender _amount] |}.

(** The state in which [payInvoice] issues its external call. *)
Definition marked (m : Machine) (msg_sender : address) (_id : uint256) : Machine :=
  {| invoices :=
       <[_id := with_client msg_sender (with_isPaid true (invoice_at m _id))]>
         (invoices m);
     invoiceCount := invoiceCount m;
     logs := logs m |}.

(** The state [payInvoice] leaves after the ledger returned in state [m2]. *)
Definition settled (m2 : Machine) (msg_sender : address) (_id : uint256) : Machine :=
  {| invoices := invoices m2; invoiceCount := invoiceCount m2;
     logs := logs m2 ++ [InvoicePaid _id msg_sender] |}.

(** ** Invariant and evolution of the registry *)

(** What holds of the storage and the logs at every point of every
    execution, also in the middle of [payInvoice] while the ledger runs. *)
Record WF (m : Machine) : Prop := mkWF {
  wf_count : invoiceCount m <= MAX_UINT256;
  wf_dom : forall id, is_Some (invoices m !! id) <-> 1 <= id <= invoiceCount m;
  wf_paid_amount : forall id,
    isPaid (invoice_at m id) = true -> 0 < amount (invoice_at m id);
  wf_issued : issued (logs m) = ids_upto (invoiceCount m)
}.

(** The terms of an invoice: the four members set at registration. *)
Definition same_terms (a b : Invoice) : Prop :=
  freelancer a = freelancer b /\ amount a = amount b /\
  dueDate a = dueDate b /\ invoiceURI a = invoiceURI b.

(** How a later state [m'] relates to an earlier state [m] when only
    complete calls lie between them. *)
Record evolves (m m' : Machine) : Prop := mkEvolves {
  ev_count : invoiceCount m <= invoiceCount m';
  ev_records : forall id inv,
    invoices m !! id = Some inv ->
    exists inv', invoices m' !! id = Some inv' /\ same_terms inv' inv /\
                 (isPaid inv = true -> inv' = inv);
  ev_paid : forall id,
    (paid_count id (logs m') + Nat.b2n (isPaid (invoice_at m id)) =
     paid_count id (logs m) + Nat.b2n (isPaid (invoice_at m' id)))%nat;
  ev_logs : exists l, logs m' = logs m ++ l
}.

(** Every reentrant [payInvoice] on an invoice that was paid in [m] was
    turned away with [AlreadyPaid]. *)
Definition trace_ok (m : Machine) (t : list TraceItem) : Prop :=
  forall sender id token o,
    In (ReentrantPay sender id token o) t ->
    isPaid (invoice_at m id) = true -> o = Some AlreadyPaid.

Definition sound {A} (x : Exec A) : Prop :=
  forall m, WF m ->
    trace_ok m (snd (x m)) /\
    match fst (x m) with
    | Ok _ m' => WF m' /\ evolves m m'
    | Reverted _ => True
    end.

(** ** A concrete scenario

  Payee [A] registers an invoice of 500 units at six decimals; payer [B]
  settles it through the token at [usdc]. *)
Module Scenario.

Definition A : address := 10.
Definition B : address := 20.
Definition usdc : address := 99.

(** A ledger that moves the funds and reports success. *)
Definition honest : World := fun _ _ _ _ => Return true.

(** A ledger that reports failure (allowance too low) without reverting. *)
Definition refusing : World := fun _ _ _ _ => Return false.

(** A ledger that, while it is being paid through, tries to settle the
    same invoice again, registers an invoice of its own, and only then
    reports success. *)
Definition reentrant : World := fun token sender _ _ =>
  ReenterPay token 1 token honest (fun _ =>
  ReenterRegister token 7 0 "ipfs://QmOther" (fun _ => Return true)).

Definition one_invoice : Machine :=
  replay [TxRegister A 500000000 86400 "ipfs://QmExample"].

Definition zero_invoice : Machine := replay [TxRegister A 0 86400 ""].

Definition paid_invoice : Machine :=
  replay [TxRegister A 500000000 86400 "ipfs://QmExample"; TxPay B 1 usdc honest].

(** A ledger that, while invoice 1 is being paid through it, settles
    invoice 2 and registers a third invoice. *)
Definition meddling : World := fun token sender _ _ =>
  ReenterPay token 2 token honest (fun _ =>
  ReenterRegister token 7 0 "ipfs://QmOther" (fun _ => Return true)).

Definition two_invoices : Machine :=
  replay [TxRegister A 500000000 86400 "ipfs://QmExample";
          TxRegister A 250000000 86400 "ipfs://QmSecond"].

End Scenario.

(** The reading of C8 that compares the state after a successful
    [payInvoice] with the state before it. *)
Definition pay_touches_one_invoice_only : Prop :=
  forall (m m' : Machine) (w : World) (caller token : address) (_id : uint256),
    reachable m ->
    fst (payInvoice (transferFrom w) caller _id token m) = Ok tt m' ->
    invoiceCount m' = invoiceCount m /\
    (forall id, id <> _id -> invoice_at m' id = invoice_at m id).

(** ** Further observations, for properties beyond the claims *)

(** The machine after more transactions, starting from [m]. *)
Definition continue (m : Machine) (txs : list Tx) : Machine :=
  fold_left apply txs m.

(** What an event says about the invoice it names, checked against storage:
    [InvoiceCreated] gives its freelancer and amount, [InvoicePaid] says it
    is paid and by whom. *)
Definition event_agrees (m : Machine) (e : Event) : Prop :=
  match e with
  | InvoiceCreated id f a =>
      freelancer (invoice_at m id) = f /\ amount (invoice_at m id) = a
  | InvoicePaid id c =>
      isPaid (invoice_at m id) = true /\ client (invoice_at m id) = c
  end.

Definition logs_agree (m : Machine) : Prop :=
  forall e, In e (logs m) -> event_agrees m e.

(** [client] stays [address(0)] until the invoice is paid. *)
Definition unpaid_unclaimed (m : Machine) : Prop :=
  forall id, isPaid (invoice_at m id) = false ->
             client (invoice_at m id) = address_zero.

(** In a log, every [InvoicePaid] comes after the [InvoiceCreated] of the
    same identifier. *)
Definition created_before_paid (l : list Event) : Prop :=
  forall l1 l2 id c,
    l = l1 ++ InvoicePaid id c :: l2 ->
    exists f a, In (InvoiceCreated id f a) l1.

(** The counter is the number of records held. *)
Definition counted (m : Machine) : Prop :=
  size (invoices m) = N.to_nat (invoiceCount m).

(** A computation keeps a property of machines: from a well-formed state
    with the property, a run that does not revert ends in a state with it. *)
Definition keeps (I : Machine -> Prop) {A} (x : Exec A) : Prop :=
  forall m, WF m -> I m ->
    match fst (x m) with
    | Ok _ m' => I m'
    | Reverted _ => True
    end.

(** ** The landing page's step carousel ([Landing.jsx])

    [activeStep] starts at 0. While the section is in view an interval runs
    [setActiveStep((prev) => (prev + 1) % steps.length)]; when it is out of
    view the effect runs [setActiveStep(0)]. [steps] has three entries. *)
Module Landing.

Definition steps_length : nat := 3.

Inductive Signal : Type :=
| Tick        (* the interval fired *)
| OutOfView.  (* the effect ran with [isInView] false *)

Definition setActiveStep (prev : nat) (s : Signal) : nat :=
  match s with
  | Tick => (prev + 1) mod steps_length
  | OutOfView => 0
  end.

Definition activeStep (signals : list Signal) : nat :=
  fold_left setActiveStep signals 0%nat.

End Landing.

(** * Lemmas *)

Create HintDb registry.

(** ** Unfolding the contract's functions *)

Lemma registerInvoice_unfold msg_sender _amount _dueDate _uri m :
  registerInvoice msg_sender _amount _dueDate _uri m =
  if invoiceCount m <? MAX_UINT256
  then (Ok (invoiceCount m + 1) (registered m msg_sender _amount _dueDate _uri), [])
  else (Reverted Overflow, []).
Proof.
  unfold registerInvoice, bind, load_invoiceCount, checked_incr.
  destruct (invoiceCount m <? MAX_UINT256); reflexivity.
Qed.

Lemma payInvoice_unfold ext msg_sender _id _usdcAddress m :
  payInvoice ext msg_sender _id _usdcAddress m =
  if isPaid (invoice_at m _id) then (Reverted AlreadyPaid, [])
  else if 0 <? amount (invoice_at m _id) then
    let call := TransferFromCall _usdcAddress msg_sender
                  (freelancer (invoice_at m _id)) (amount (invoice_at m _id)) in
    match ext _usdcAddress msg_sender (freelancer (invoice_at m _id))
              (amount (invoice_at m _id)) (marked m msg_sender _id) with
    | (Ok true m2, t) => (Ok tt (settled m2 msg_sender _id), call :: t)
    | (Ok false _, t) => (Reverted TransferRejected, call :: t)
    | (Reverted r, t) => (Reverted r, call :: t)
    end
  else (Reverted NotFound, []).
Proof.
  unfold payInvoice, update_invoice, external_transferFrom.
  cbv beta iota delta [bind load_invoice require store_invoice record emit ret revert].
  destruct (isPaid (invoice_at m _id)) eqn:Hp; cbn [negb]; [reflexivity|].
  destruct (0 <? amount (invoice_at m _id)) eqn:Ha; [|reflexivity].
  cbn [invoices invoiceCount logs].
  assert (Hat : forall M c l v, invoice_at (mkMachine (<[_id := v]> M) c l) _id = v).
  { intros. unfold invoice_at. cbn [invoices]. now rewrite lookup_insert_eq. }
  rewrite !Hat, insert_insert_eq.
  cbn [with_client with_isPaid freelancer amount app].
  fold (marked m msg_sender _id).
  destruct (ext _ _ _ _ _) as [[[|] m2|r] t]; cbn [app]; rewrite ?app_nil_r; reflexivity.
Qed.

Lemma run_ReenterRegister_unfold sender _amount _dueDate _uri k m :
  run (ReenterRegister sender _amount _dueDate _uri k) m =
  match registerInvoice sender _amount _dueDate _uri m with
  | (Ok id m1, t) =>
      let (r, t') := run (k (inr id)) m1 in
      (r, t ++ ReentrantRegister sender (inr id) :: t')
  | (Reverted e, t) =>
      let (r, t') := run (k (inl e)) m in
      (r, t ++ ReentrantRegister sender (inl e) :: t')
  end.
Proof.
  cbn [run]. unfold bind, try, record.
  destruct (registerInvoice _ _ _ _ m) as [[id m1|e] t];
    destruct (run _ _) as [r t']; reflexivity.
Qed.

Lemma run_ReenterPay_unfold sender _id _usdcAddress w k m :
  run (ReenterPay sender _id _usdcAddress w k) m =
  match payInvoice (transferFrom w) sender _id _usdcAddress m with
  | (Ok _ m1, t) =>
      let (r, t') := run (k None) m1 in
      (r, t ++ ReentrantPay sender _id _usdcAddress None :: t')
  | (Reverted e, t) =>
      let (r, t') := run (k (Some e)) m in
      (r, t ++ ReentrantPay sender _id _usdcAddress (Some e) :: t')
  end.
Proof.
  cbn [run]. unfold bind, try, record.
  change (fun t s p a => run (w t s p a)) with (transferFrom w).
  destruct (payInvoice _ _ _ _ m) as [[[] m1|e] t]; cbn [outcome];
    destruct (run _ _) as [r t']; reflexivity.
Qed.

Lemma run_ReenterGet_unfold _id k m :
  run (ReenterGet _id k) m = run (k (invoice_at m _id)) m.
Proof.
  cbn [run]. unfold bind, getInvoice, load_invoice.
  destruct (run _ _) as [r t']; reflexivity.
Qed.

(** ** Reading the states the contract writes *)

Lemma invoice_at_marked_eq m sender _id :
  invoice_at (marked m sender _id) _id =
  with_client sender (with_isPaid true (invoice_at m _id)).
Proof. unfold invoice_at, marked. cbn [invoices]. now rewrite lookup_insert_eq. Qed.

Lemma invoice_at_marked_ne m sender _id id :
  id <> _id -> invoice_at (marked m sender _id) id = invoice_at m id.
Proof.
  intros Hne. unfold invoice_at, marked. cbn [invoices].
  now rewrite lookup_insert_ne by congruence.
Qed.

Lemma invoice_at_registered_eq m sender _amount _dueDate _uri :
  invoice_at (registered m sender _amount _dueDate _uri) (invoiceCount m + 1) =
  {| freelancer := sender; client := address_zero; amount := _amount;
     dueDate := _dueDate; isPaid := false; invoiceURI := _uri |}.
Proof. unfold invoice_at, registered. cbn [invoices]. now rewrite lookup_insert_eq. Qed.

Lemma invoice_at_registered_ne m sender _amount _dueDate _uri id :
  id <> invoiceCount m + 1 ->
  invoice_at (registered m sender _amount _dueDate _uri) id = invoice_at m id.
Proof.
  intros Hne. unfold invoice_at, registered. cbn [invoices].
  now rewrite lookup_insert_ne by congruence.
Qed.

Lemma invoice_at_settled m2 sender _id id :
  invoice_at (settled m2 sender _id) id = invoice_at m2 id.
Proof. reflexivity. Qed.

Lemma invoice_at_Some m id inv :
  invoices m !! id = Some inv -> invoice_at m id = inv.
Proof. intros H. unfold invoice_at. now rewrite H. Qed.

Lemma invoice_at_None m id :
  invoices m !! id = None -> invoice_at m id = zeroInvoice.
Proof. intros H. unfold invoice_at. now rewrite H. Qed.

Lemma paid_is_stored m id :
  isPaid (invoice_at m id) = true ->
  invoices m !! id = Some (invoice_at m id).
Proof.
  unfold invoice_at. destruct (invoices m !! id); cbn; [reflexivity|discriminate].
Qed.

(** ** Counting events *)

Lemma issued_app l1 l2 : issued (l1 ++ l2) = issued l1 ++ issued l2.
Proof. apply omap_app. Qed.

Lemma paid_count_app _id l1 l2 :
  paid_count _id (l1 ++ l2) = (paid_count _id l1 + paid_count _id l2)%nat.
Proof. unfold paid_count. now rewrite List.filter_app, length_app. Qed.

Lemma ids_upto_succ n : ids_upto (n + 1) = ids_upto n ++ [n + 1].
Proof.
  unfold ids_upto.
  replace (N.to_nat (n + 1)) with (S (N.to_nat n)) by lia.
  rewrite seq_S, map_app. cbn [map]. do 2 f_equal. lia.
Qed.

Lemma elem_of_ids_upto n id : In id (ids_upto n) <-> 1 <= id <= n.
Proof.
  unfold ids_upto. rewrite in_map_iff. split.
  - intros (k & <- & Hk). apply in_seq in Hk. lia.
  - intros H. exists (N.to_nat id). split; [lia|]. apply in_seq. lia.
Qed.

(** ** Invariant and evolution: basic facts *)

Lemma same_terms_refl a : same_terms a a.
Proof. repeat split. Qed.

Lemma same_terms_trans a b c : same_terms a b -> same_terms b c -> same_terms a c.
Proof. unfold same_terms. intuition congruence. Qed.

Lemma evolves_refl m : evolves m m.
Proof.
  split; [lia| |lia|exists []; now rewrite app_nil_r].
  intros id inv H. exists inv. auto using same_terms_refl.
Qed.

Lemma evolves_trans m1 m2 m3 : evolves m1 m2 -> evolves m2 m3 -> evolves m1 m3.
Proof.
  intros [c1 r1 p1 [l1 e1]] [c2 r2 p2 [l2 e2]]. split.
  - lia.
  - intros id inv H. destruct (r1 _ _ H) as (inv' & H' & T1 & P1).
    destruct (r2 _ _ H') as (inv'' & H'' & T2 & P2).
    exists inv''. split; [assumption|]. split; [eauto using same_terms_trans|].
    intros Hp. specialize (P1 Hp). subst inv'. auto.
  - intros id. specialize (p1 id). specialize (p2 id). lia.
  - exists (l1 ++ l2). rewrite e2, e1. now rewrite app_assoc.
Qed.

Lemma evolves_paid m m' id :
  evolves m m' -> isPaid (invoice_at m id) = true ->
  invoice_at m' id = invoice_at m id.
Proof.
  intros E Hp. destruct (ev_records _ _ E _ _ (paid_is_stored _ _ Hp)) as (inv' & H' & _ & P).
  rewrite (invoice_at_Some _ _ _ H'). auto.
Qed.

Lemma trace_ok_evolves m m' t : evolves m m' -> trace_ok m' t -> trace_ok m t.
Proof.
  intros E Ht sender id token o Hin Hp. apply (Ht _ _ _ _ Hin).
  rewrite (evolves_paid _ _ _ E Hp). assumption.
Qed.

Lemma trace_ok_app m t1 t2 : trace_ok m t1 -> trace_ok m t2 -> trace_ok m (t1 ++ t2).
Proof.
  intros H1 H2 sender id token o Hin. apply in_app_or in Hin as [Hin|Hin]; eauto.
Qed.

Lemma trace_ok_nil m : trace_ok m [].
Proof. intros ? ? ? ? []. Qed.

#[local] Hint Resolve same_terms_refl evolves_refl trace_ok_nil trace_ok_app : registry.

Lemma WF_genesis : WF genesis.
Proof.
  split; cbn.
  - unfold MAX_UINT256. lia.
  - intros id. rewrite lookup_empty. split; [intros [? ?]; discriminate|lia].
  - intros id. unfold invoice_at. cbn. rewrite lookup_empty. discriminate.
  - reflexivity.
Qed.

(** *** [registerInvoice] keeps the invariant *)

Lemma WF_registered m sender _amount _dueDate _uri :
  WF m -> invoiceCount m < MAX_UINT256 ->
  WF (registered m sender _amount _dueDate _uri).
Proof.
  intros [Hc Hd Hp Hi] Hlt. split; cbn [registered invoiceCount logs invoices].
  - lia.
  - intros id. rewrite lookup_insert. case_decide as Heq.
    + subst id. split; [lia|eauto].
    + rewrite Hd. lia.
  - intros id. destruct (N.eq_dec id (invoiceCount m + 1)) as [->|Hne].
    + rewrite invoice_at_registered_eq. discriminate.
    + rewrite invoice_at_registered_ne by assumption. apply Hp.
  - rewrite issued_app, Hi, ids_upto_succ. reflexivity.
Qed.

Lemma fresh_slot m id : WF m -> invoiceCount m < id -> invoices m !! id = None.
Proof.
  intros W Hlt. destruct (invoices m !! id) eqn:E; [|reflexivity].
  assert (Hs : is_Some (invoices m !! id)) by (rewrite E; eauto).
  apply (wf_dom _ W) in Hs. lia.
Qed.

Lemma evolves_registered m sender _amount _dueDate _uri :
  WF m -> evolves m (registered m sender _amount _dueDate _uri).
Proof.
  intros W. split; cbn [registered invoiceCount logs invoices].
  - lia.
  - intros id inv H. exists inv.
    rewrite lookup_insert_ne; [auto using same_terms_refl|].
    intros <-. rewrite (fresh_slot m) in H by (assumption || lia). discriminate.
  - intros id. rewrite paid_count_app. cbn.
    destruct (N.eq_dec id (invoiceCount m + 1)) as [->|Hne].
    + rewrite invoice_at_registered_eq.
      rewrite (invoice_at_None m) by (apply fresh_slot; [assumption|lia]).
      cbn. lia.
    + rewrite invoice_at_registered_ne by assumption. lia.
  - eauto.
Qed.

#[local] Hint Resolve WF_registered evolves_registered : registry.

Lemma sound_registerInvoice sender _amount _dueDate _uri :
  sound (registerInvoice sender _amount _dueDate _uri).
Proof.
  intros m W. rewrite registerInvoice_unfold.
  destruct (invoiceCount m <? MAX_UINT256) eqn:Hlt; cbn [fst snd].
  - apply N.ltb_lt in Hlt. auto with registry.
  - auto with registry.
Qed.

(** *** [payInvoice] keeps the invariant, whatever the ledger does *)

Lemma WF_marked m sender _id :
  WF m -> 0 < amount (invoice_at m _id) -> WF (marked m sender _id).
Proof.
  intros [Hc Hd Hp Hi] Ha. split; cbn [marked invoiceCount logs invoices]; try assumption.
  - intros id. rewrite lookup_insert. case_decide as Heq.
    + subst id. rewrite <- Hd. split; [intros _|eauto].
      destruct (invoices m !! _id) as [inv|] eqn:E; [eauto|].
      rewrite (invoice_at_None _ _ E) in Ha. cbn in Ha. lia.
    + apply Hd.
  - intros id. destruct (N.eq_dec id _id) as [->|Hne].
    + rewrite invoice_at_marked_eq. intros _. exact Ha.
    + rewrite invoice_at_marked_ne by assumption. apply Hp.
Qed.

Lemma WF_settled m2 sender _id : WF m2 -> WF (settled m2 sender _id).
Proof.
  intros [Hc Hd Hp Hi]. split; cbn [settled invoiceCount logs invoices]; try assumption.
  rewrite issued_app, Hi. cbn. now rewrite app_nil_r.
Qed.

Lemma paid_count_settle id _id sender l :
  paid_count id (l ++ [InvoicePaid _id sender]) =
  (paid_count id l + if N.eq_dec id _id then 1 else 0)%nat.
Proof.
  rewrite paid_count_app. f_equal. unfold paid_count. cbn.
  destruct (N.eq_dec id _id) as [->|Hne].
  - now rewrite N.eqb_refl.
  - destruct (_id =? id) eqn:E; [apply N.eqb_eq in E; congruence|reflexivity].
Qed.

Lemma evolves_pay m m2 sender _id :
  isPaid (invoice_at m _id) = false ->
  evolves (marked m sender _id) m2 ->
  evolves m (settled m2 sender _id).
Proof.
  intros Hunpaid E.
  assert (Hkept : invoice_at m2 _id = invoice_at (marked m sender _id) _id).
  { apply (evolves_paid _ _ _ E). now rewrite invoice_at_marked_eq. }
  destruct E as [Ec Er Ep [l El]].
  split; cbn [settled marked invoiceCount logs invoices] in *.
  - assumption.
  - intros id inv H. destruct (N.eq_dec id _id) as [->|Hne].
    + destruct (Er _id (with_client sender (with_isPaid true inv)))
        as (inv' & H' & T & P).
      { rewrite lookup_insert_eq. now rewrite (invoice_at_Some _ _ _ H). }
      exists inv'. split; [assumption|]. split; [exact T|].
      intros Hp. rewrite (invoice_at_Some _ _ _ H) in Hunpaid. congruence.
    + apply Er. now rewrite lookup_insert_ne by congruence.
  - intros id. specialize (Ep id). rewrite paid_count_settle.
    rewrite invoice_at_settled.
    destruct (N.eq_dec id _id) as [->|Hne].
    + rewrite Hkept in *. rewrite invoice_at_marked_eq in *.
      rewrite Hunpaid. cbn in *. lia.
    + rewrite invoice_at_marked_ne in Ep by assumption. lia.
  - exists (l ++ [InvoicePaid _id sender]). rewrite El. now rewrite app_assoc.
Qed.

Lemma trace_ok_marked m sender _id t :
  trace_ok (marked m sender _id) t -> trace_ok m t.
Proof.
  intros Ht s id token o Hin Hp. apply (Ht _ _ _ _ Hin).
  destruct (N.eq_dec id _id) as [->|Hne].
  - now rewrite invoice_at_marked_eq.
  - now rewrite invoice_at_marked_ne.
Qed.

Lemma trace_ok_cons_call m token s p a t :
  trace_ok m t -> trace_ok m (TransferFromCall token s p a :: t).
Proof. intros Ht s' id tok o [Hin|Hin]; [discriminate|eauto]. Qed.

Lemma sound_payInvoice ext sender _id _usdcAddress :
  (forall t s p a, sound (ext t s p a)) ->
  sound (payInvoice ext sender _id _usdcAddress).
Proof.
  intros Hext m W. rewrite payInvoice_unfold.
  destruct (isPaid (invoice_at m _id)) eqn:Hp; [cbn; auto using trace_ok_nil|].
  destruct (0 <? amount (invoice_at m _id)) eqn:Ha; [|cbn; auto using trace_ok_nil].
  apply N.ltb_lt in Ha. cbv zeta.
  pose proof (Hext _usdcAddress sender (freelancer (invoice_at m _id))
                   (amount (invoice_at m _id)) (marked m sender _id)
                   (WF_marked _ sender _ W Ha)) as [Ht Hr].
  destruct (ext _ _ _ _ _) as [[[|] m2|r] t]; cbn [fst snd] in *;
    (split; [now apply trace_ok_cons_call, trace_ok_marked with sender _id|]);
    try exact I.
  destruct Hr as [W2 E2]. auto using WF_settled, evolves_pay.
Qed.

Lemma payInvoice_on_paid ext sender _id _usdcAddress m :
  isPaid (invoice_at m _id) = true ->
  payInvoice ext sender _id _usdcAddress m = (Reverted AlreadyPaid, []).
Proof. intros Hp. rewrite payInvoice_unfold, Hp. reflexivity. Qed.

(** *** The ledger's callbacks keep the invariant *)

Lemma trace_ok_reentered m m1 t item t' :
  evolves m m1 -> trace_ok m t -> trace_ok m [item] -> trace_ok m1 t' ->
  trace_ok m (t ++ item :: t').
Proof.
  intros E H1 H2 H3. apply trace_ok_app; [assumption|].
  change (item :: t') with ([item] ++ t').
  apply trace_ok_app; [assumption|]. eauto using trace_ok_evolves.
Qed.

Lemma trace_ok_register_item m sender r : trace_ok m [ReentrantRegister sender r].
Proof. intros s id tok o [Hin|[]]. discriminate. Qed.

#[local] Hint Resolve trace_ok_reentered trace_ok_register_item : registry.
#[local] Hint Resolve evolves_trans | 5 : registry.

Lemma sound_run L : sound (run L).
Proof.
  induction L as [success|r|sender a d u k IHk|sender _id tok w IHw k IHk|_id k IHk];
    intros m W.
  - cbn. auto with registry.
  - cbn. auto with registry.
  - rewrite run_ReenterRegister_unfold.
    pose proof (sound_registerInvoice sender a d u m W) as [Ht Hr].
    destruct (registerInvoice sender a d u m) as [[id m1|e] t]; cbn [fst snd] in *.
    + destruct Hr as [W1 E1].
      pose proof (IHk (inr id) m1 W1) as [Ht' Hr'].
      destruct (run (k (inr id)) m1) as [[b m'|e'] t']; cbn [fst snd] in *.
      * destruct Hr' as [W' E'].
        eauto with registry.
      * eauto with registry.
    + pose proof (IHk (inl e) m W) as [Ht' Hr'].
      destruct (run (k (inl e)) m) as [[b m'|e'] t']; cbn [fst snd] in *;
        eauto with registry.
  - rewrite run_ReenterPay_unfold.
    assert (Hpay : sound (payInvoice (transferFrom w) sender _id tok)).
    { apply sound_payInvoice. intros t s p a. apply IHw. }
    pose proof (Hpay m W) as [Ht Hr].
    assert (Hitem : forall o,
      (isPaid (invoice_at m _id) = true -> o = Some AlreadyPaid) ->
      trace_ok m [ReentrantPay sender _id tok o]).
    { intros o Ho s id tk o' [Hin|[]] Hp. injection Hin as <- <- <- <-. auto. }
    destruct (payInvoice (transferFrom w) sender _id tok m) as [[[] m1|e] t] eqn:Epay;
      cbn [fst snd] in *.
    + destruct Hr as [W1 E1].
      assert (Hi : trace_ok m [ReentrantPay sender _id tok None]).
      { apply Hitem. intros Hp.
        rewrite payInvoice_on_paid in Epay by assumption. discriminate. }
      pose proof (IHk None m1 W1) as [Ht' Hr'].
      destruct (run (k None) m1) as [[b m'|e'] t']; cbn [fst snd] in *.
      * destruct Hr' as [W' E']. eauto with registry.
      * eauto with registry.
    + assert (Hi : trace_ok m [ReentrantPay sender _id tok (Some e)]).
      { apply Hitem. intros Hp.
        rewrite payInvoice_on_paid in Epay by assumption. congruence. }
      pose proof (IHk (Some e) m W) as [Ht' Hr'].
      destruct (run (k (Some e)) m) as [[b m'|e'] t']; cbn [fst snd] in *;
        eauto with registry.
  - rewrite run_ReenterGet_unfold. apply IHk. assumption.
Qed.

Lemma sound_transferFrom (w : World) token s p a : sound (transferFrom w token s p a).
Proof. apply sound_run. Qed.

(** ** Transactions keep the invariant *)

Lemma apply_sound m tx : WF m -> WF (apply m tx) /\ evolves m (apply m tx).
Proof.
  intros W. destruct tx as [sender a d u|sender _id tok w|_id]; cbn [apply]; unfold commit.
  - pose proof (sound_registerInvoice sender a d u m W) as [_ Hr].
    destruct (fst _); auto using evolves_refl.
  - pose proof (sound_payInvoice (transferFrom w) sender _id tok
                  (sound_transferFrom w) m W) as [_ Hr].
    destruct (fst _); auto using evolves_refl.
  - cbn. auto using evolves_refl.
Qed.

Lemma replay_snoc txs tx : replay (txs ++ [tx]) = apply (replay txs) tx.
Proof. unfold replay. now rewrite fold_left_app. Qed.

Lemma replay_sound txs : WF (replay txs) /\ evolves genesis (replay txs).
Proof.
  induction txs as [|tx txs IH] using rev_ind.
  - split; [apply WF_genesis|apply evolves_refl].
  - rewrite replay_snoc. destruct IH as [W E].
    destruct (apply_sound (replay txs) tx W). eauto using evolves_trans.
Qed.

Lemma reachable_WF m : reachable m -> WF m.
Proof. intros [txs <-]. apply replay_sound. Qed.

Lemma reachable_apply m tx : reachable m -> reachable (apply m tx).
Proof. intros [txs <-]. exists (txs ++ [tx]). apply replay_snoc. Qed.

(** In a state between transactions, an invoice has exactly one
    [InvoicePaid] event if it is paid and none otherwise. *)
Lemma reachable_paid_count m id :
  reachable m -> paid_count id (logs m) = Nat.b2n (isPaid (invoice_at m id)).
Proof.
  intros [txs <-]. destruct (replay_sound txs) as [_ E].
  pose proof (ev_paid _ _ E id) as H. cbn in H.
  unfold invoice_at at 1 in H. cbn in H. rewrite lookup_empty in H. cbn in H. lia.
Qed.

(** * The claims *)

(** C1. For every invoice that exists (amount > 0) and is unpaid, one call
    of [payInvoice] by any caller for whom the ledger's [transferFrom]
    reports success (the caller's allowance suffices) succeeds: the invoice
    ends with [isPaid = true] and [client] = the caller and is otherwise as
    registered, the ledger at the given address was asked to move exactly
    [amount] from the caller to the stored [freelancer], and the last event
    logged is [InvoicePaid (_id, caller)]. *)
Theorem pay_unpaid_invoice_succeeds
    (m : Machine) (w : World) (caller token : address) (_id : uint256)
    (m2 : Machine) (t : list TraceItem) :
  let inv := invoice_at m _id in
  reachable m ->
  0 < amount inv ->
  isPaid inv = false ->
  transferFrom w token caller (freelancer inv) (amount inv) (marked m caller _id)
    = (Ok true m2, t) ->
  let m' := apply m (TxPay caller _id token w) in
  payInvoice (transferFrom w) caller _id token m =
    (Ok tt m', TransferFromCall token caller (freelancer inv) (amount inv) :: t) /\
  isPaid (invoice_at m' _id) = true /\
  client (invoice_at m' _id) = caller /\
  invoice_at m' _id = with_client caller (with_isPaid true inv) /\
  (exists l, logs m' = logs m ++ l ++ [InvoicePaid _id caller]).
Proof.
  intros inv Hreach Ha Hp Hcall m'.
  assert (Hpay : payInvoice (transferFrom w) caller _id token m =
    (Ok tt (settled m2 caller _id),
     TransferFromCall token caller (freelancer inv) (amount inv) :: t)).
  { rewrite payInvoice_unfold. fold inv. rewrite Hp.
    apply N.ltb_lt in Ha. rewrite Ha. cbv zeta. now rewrite Hcall. }
  assert (Hm' : m' = settled m2 caller _id).
  { subst m'. cbn [apply]. now rewrite Hpay. }
  pose proof (sound_transferFrom w token caller (freelancer inv) (amount inv)
                (marked m caller _id)
                (WF_marked _ caller _ (reachable_WF _ Hreach) Ha)) as [_ Hr].
  rewrite Hcall in Hr. cbn [fst] in Hr. destruct Hr as [_ E].
  assert (Hkept : invoice_at m2 _id = with_client caller (with_isPaid true inv)).
  { unfold inv. rewrite <- invoice_at_marked_eq. apply (evolves_paid _ _ _ E).
    now rewrite invoice_at_marked_eq. }
  rewrite Hm'. rewrite invoice_at_settled, Hkept.
  repeat split; try reflexivity; try assumption.
  destruct (ev_logs _ _ E) as [l El]. exists l.
  cbn [settled logs marked] in *. rewrite El. now rewrite app_assoc.
Qed.

Lemma pay_unpaid_invoice_succeeds_witness :
  let m := Scenario.one_invoice in
  let m' := apply m (TxPay Scenario.B 1 Scenario.usdc Scenario.honest) in
  (0 < amount (invoice_at m 1) /\ isPaid (invoice_at m 1) = false) /\
  payInvoice (transferFrom Scenario.honest) Scenario.B 1 Scenario.usdc m =
    (Ok tt m', [TransferFromCall Scenario.usdc Scenario.B Scenario.A 500000000]) /\
  isPaid (invoice_at m' 1) = true /\
  client (invoice_at m' 1) = Scenario.B /\
  invoice_at m' 1 = with_client Scenario.B (with_isPaid true (invoice_at m 1)) /\
  (exists l, logs m' = logs m ++ l ++ [InvoicePaid 1 Scenario.B]).
Proof.
  split; [split; reflexivity|].
  apply (pay_unpaid_invoice_succeeds Scenario.one_invoice Scenario.honest
           Scenario.B Scenario.usdc 1 (marked Scenario.one_invoice Scenario.B 1) []).
  - exists [TxRegister Scenario.A 500000000 86400 "ipfs://QmExample"]. reflexivity.
  - reflexivity.
  - reflexivity.
  - reflexivity.
Defined.

(** C3. If the ledger's [transferFrom] returns [false], [payInvoice] fails
    with "USDC transfer failed. Check allowance." (TransferRejected); the
    revert discards the interim writes, so the committed state is the state
    before the call: [isPaid] is still false, [client] is as before and no
    [InvoicePaid] event was logged. *)
Theorem transfer_failure_reverts_payment
    (m : Machine) (w : World) (caller token : address) (_id : uint256)
    (m2 : Machine) (t : list TraceItem) :
  let inv := invoice_at m _id in
  isPaid inv = false ->
  0 < amount inv ->
  transferFrom w token caller (freelancer inv) (amount inv) (marked m caller _id)
    = (Ok false m2, t) ->
  let m' := apply m (TxPay caller _id token w) in
  payInvoice (transferFrom w) caller _id token m =
    (Reverted TransferRejected,
     TransferFromCall token caller (freelancer inv) (amount inv) :: t) /\
  m' = m /\
  isPaid (invoice_at m' _id) = false /\
  logs m' = logs m.
Proof.
  intros inv Hp Ha Hcall m'.
  assert (Hpay : payInvoice (transferFrom w) caller _id token m =
    (Reverted TransferRejected,
     TransferFromCall token caller (freelancer inv) (amount inv) :: t)).
  { rewrite payInvoice_unfold. fold inv. rewrite Hp.
    apply N.ltb_lt in Ha. rewrite Ha. cbv zeta. now rewrite Hcall. }
  assert (Hm' : m' = m).
  { subst m'. cbn [apply]. now rewrite Hpay. }
  rewrite Hm'. auto.
Qed.

Lemma transfer_failure_reverts_payment_witness :
  let m := Scenario.one_invoice in
  let m' := apply m (TxPay Scenario.B 1 Scenario.usdc Scenario.refusing) in
  payInvoice (transferFrom Scenario.refusing) Scenario.B 1 Scenario.usdc m =
    (Reverted TransferRejected,
     [TransferFromCall Scenario.usdc Scenario.B Scenario.A 500000000]) /\
  m' = m /\
  isPaid (invoice_at m' 1) = false /\
  logs m' = logs m.
Proof.
  apply (transfer_failure_reverts_payment Scenario.one_invoice Scenario.refusing
           Scenario.B Scenario.usdc 1 (marked Scenario.one_invoice Scenario.B 1) []);
    reflexivity.
Defined.

(** C4. On an invoice whose [isPaid] is already true, every [payInvoice]
    fails with "Invoice already paid" (AlreadyPaid) before anything is
    written: the ledger is not called (the result does not depend on it and
    the trace is empty), and the committed state, logs included, is the
    state before the call. *)
Theorem pay_paid_invoice_fails
    (m : Machine) (caller token : address) (_id : uint256) :
  isPaid (invoice_at m _id) = true ->
  (forall ext, payInvoice ext caller _id token m = (Reverted AlreadyPaid, [])) /\
  (forall w, apply m (TxPay caller _id token w) = m).
Proof.
  intros Hp. split.
  - intros ext. now apply payInvoice_on_paid.
  - intros w. cbn [apply]. now rewrite payInvoice_on_paid.
Qed.

Lemma pay_paid_invoice_fails_witness :
  isPaid (invoice_at Scenario.paid_invoice 1) = true /\
  (forall ext, payInvoice ext Scenario.A 1 Scenario.usdc Scenario.paid_invoice
               = (Reverted AlreadyPaid, [])) /\
  (forall w, apply Scenario.paid_invoice (TxPay Scenario.A 1 Scenario.usdc w)
             = Scenario.paid_invoice).
Proof.
  split; [reflexivity|].
  apply (pay_paid_invoice_fails Scenario.paid_invoice Scenario.A Scenario.usdc 1).
  reflexivity.
Defined.

(** C5. In every reachable state, at an identifier where no invoice with a
    nonzero amount is stored (never created, or created with amount zero),
    [payInvoice] fails with "Invoice does not exist" (NotFound) without
    calling the ledger, and the committed state, logs included, is the
    state before the call. A zero-amount invoice is therefore never paid: in
    every reachable state [isPaid = true] implies [amount > 0]. *)
Theorem pay_missing_invoice_fails
    (m : Machine) (caller token : address) (_id : uint256) :
  reachable m ->
  amount (invoice_at m _id) = 0 ->
  (forall ext, payInvoice ext caller _id token m = (Reverted NotFound, [])) /\
  (forall w, apply m (TxPay caller _id token w) = m) /\
  (invoices m !! _id = None -> amount (invoice_at m _id) = 0) /\
  (forall id, isPaid (invoice_at m id) = true -> 0 < amount (invoice_at m id)).
Proof.
  intros Hreach Ha.
  pose proof (reachable_WF _ Hreach) as W.
  assert (Hp : isPaid (invoice_at m _id) = false).
  { destruct (isPaid (invoice_at m _id)) eqn:E; [|reflexivity].
    apply (wf_paid_amount _ W) in E. lia. }
  assert (Hpay : forall ext,
    payInvoice ext caller _id token m = (Reverted NotFound, [])).
  { intros ext. rewrite payInvoice_unfold, Hp, Ha. reflexivity. }
  repeat split.
  - exact Hpay.
  - intros w. cbn [apply]. now rewrite Hpay.
  - intros Hnone. now rewrite invoice_at_None.
  - apply (wf_paid_amount _ W).
Qed.

Lemma pay_missing_invoice_fails_witness :
  (amount (invoice_at Scenario.zero_invoice 1) = 0 /\
   amount (invoice_at Scenario.zero_invoice 2) = 0) /\
  ((forall ext, payInvoice ext Scenario.B 1 Scenario.usdc Scenario.zero_invoice
                = (Reverted NotFound, [])) /\
   (forall w, apply Scenario.zero_invoice (TxPay Scenario.B 1 Scenario.usdc w)
              = Scenario.zero_invoice) /\
   (invoices Scenario.zero_invoice !! 1 = None ->
    amount (invoice_at Scenario.zero_invoice 1) = 0) /\
   (forall id, isPaid (invoice_at Scenario.zero_invoice id) = true ->
               0 < amount (invoice_at Scenario.zero_invoice id))) /\
  (forall ext, payInvoice ext Scenario.B 2 Scenario.usdc Scenario.zero_invoice
               = (Reverted NotFound, [])).
Proof.
  split; [split; reflexivity|]. split.
  - apply (pay_missing_invoice_fails Scenario.zero_invoice Scenario.B Scenario.usdc 1).
    + exists [TxRegister Scenario.A 0 86400 ""]. reflexivity.
    + reflexivity.
  - apply (pay_missing_invoice_fails Scenario.zero_invoice Scenario.B Scenario.usdc 2).
    + exists [TxRegister Scenario.A 0 86400 ""]. reflexivity.
    + reflexivity.
Defined.

(** C2. In [payInvoice] the writes [isPaid = true] and [client = msg.sender]
    precede the external call: the ledger is entered in the state [marked],
    where the invoice already reads as paid by the caller. Hence every
    [payInvoice] on the same identifier issued while the ledger runs, at any
    depth of nesting, fails with "Invoice already paid". Over every
    execution an invoice has one [InvoicePaid] event if it is paid and none
    otherwise, and a paid invoice never changes again: [isPaid] goes from
    false to true at most once and never back. *)
Theorem paid_flag_set_before_transfer
    (txs : list Tx) (caller token : address) (_id : uint256) :
  let m := replay txs in
  let inv := invoice_at m _id in
  let m1 := marked m caller _id in
  let call := TransferFromCall token caller (freelancer inv) (amount inv) in
  (isPaid inv = false -> 0 < amount inv ->
   isPaid (invoice_at m1 _id) = true /\
   client (invoice_at m1 _id) = caller /\
   (forall ext, payInvoice ext caller _id token m =
      match ext token caller (freelancer inv) (amount inv) m1 with
      | (Ok true m2, t) => (Ok tt (settled m2 caller _id), call :: t)
      | (Ok false _, t) => (Reverted TransferRejected, call :: t)
      | (Reverted r, t) => (Reverted r, call :: t)
      end) /\
   (forall ext sender token',
      payInvoice ext sender _id token' m1 = (Reverted AlreadyPaid, []))) /\
  (forall w sender token' o,
     In (ReentrantPay sender _id token' o)
        (snd (payInvoice (transferFrom w) caller _id token m)) ->
     o = Some AlreadyPaid) /\
  (forall id, paid_count id (logs m) = Nat.b2n (isPaid (invoice_at m id))) /\
  (forall tx id, isPaid (invoice_at m id) = true ->
                 invoice_at (apply m tx) id = invoice_at m id).
Proof.
  intros m inv m1 call.
  assert (Hreach : reachable m) by (exists txs; reflexivity).
  pose proof (reachable_WF _ Hreach) as W.
  assert (Hm1 : isPaid (invoice_at m1 _id) = true).
  { unfold m1. now rewrite invoice_at_marked_eq. }
  split; [|split; [|split]].
  - intros Hp Ha. split; [exact Hm1|]. split; [|split].
    + unfold m1. now rewrite invoice_at_marked_eq.
    + intros ext. rewrite payInvoice_unfold. fold inv. rewrite Hp.
      apply N.ltb_lt in Ha. rewrite Ha. reflexivity.
    + intros ext sender token'. now apply payInvoice_on_paid.
  - intros w sender token' o Hin.
    rewrite payInvoice_unfold in Hin. fold inv m1 in Hin.
    destruct (isPaid inv) eqn:Hp; [destruct Hin|].
    destruct (0 <? amount inv) eqn:Ha; [|destruct Hin].
    apply N.ltb_lt in Ha. cbv zeta in Hin.
    pose proof (sound_transferFrom w token caller (freelancer inv) (amount inv)
                  m1 (WF_marked _ caller _ W Ha)) as [Ht _].
    assert (Hin' : In (ReentrantPay sender _id token' o)
      (snd (transferFrom w token caller (freelancer inv) (amount inv) m1))).
    { destruct (transferFrom w token caller (freelancer inv) (amount inv) m1)
        as [[[|] m2|r] t]; cbn [snd] in *;
        (destruct Hin as [Hin|Hin]; [discriminate|exact Hin]). }
    exact (Ht _ _ _ _ Hin' Hm1).
  - intros id. now apply reachable_paid_count.
  - intros tx id Hp. destruct (apply_sound m tx W) as [_ E].
    now apply (evolves_paid _ _ _ E).
Qed.

Lemma paid_flag_set_before_transfer_witness :
  let m := Scenario.one_invoice in
  let m1 := marked m Scenario.B 1 in
  snd (payInvoice (transferFrom Scenario.reentrant) Scenario.B 1 Scenario.usdc m) =
    [TransferFromCall Scenario.usdc Scenario.B Scenario.A 500000000;
     ReentrantPay Scenario.usdc 1 Scenario.usdc (Some AlreadyPaid);
     ReentrantRegister Scenario.usdc (inr 2)] /\
  (isPaid (invoice_at m 1) = false /\ 0 < amount (invoice_at m 1)) /\
  isPaid (invoice_at m1 1) = true /\
  client (invoice_at m1 1) = Scenario.B /\
  (forall ext sender token',
     payInvoice ext sender 1 token' m1 = (Reverted AlreadyPaid, [])) /\
  (forall sender token' o,
     In (ReentrantPay sender 1 token' o)
        (snd (payInvoice (transferFrom Scenario.reentrant) Scenario.B 1
                Scenario.usdc m)) ->
     o = Some AlreadyPaid).
Proof.
  pose proof (paid_flag_set_before_transfer
                [TxRegister Scenario.A 500000000 86400 "ipfs://QmExample"]
                Scenario.B Scenario.usdc 1) as (Horder & Hreenter & _ & _).
  split; [reflexivity|]. split; [split; reflexivity|].
  destruct (Horder eq_refl eq_refl) as (Hpaid & Hclient & _ & Hagain).
  split; [exact Hpaid|]. split; [exact Hclient|]. split; [exact Hagain|].
  exact (Hreenter Scenario.reentrant).
Defined.

(** C6. While the counter is below [2^256 - 1], [registerInvoice] succeeds
    for every caller and every [(_amount, _dueDate, _uri)], zero amount
    included: it increments [invoiceCount], stores under the new count a
    record with [freelancer] = the caller, [client = address(0)],
    [isPaid = false] and the three inputs as given, logs
    [InvoiceCreated (id, caller, _amount)] and returns the new count;
    [getInvoice] on that identifier then returns exactly that record. *)
Theorem register_succeeds
    (m : Machine) (caller : address) (_amount _dueDate : uint256) (_uri : string) :
  invoiceCount m < MAX_UINT256 ->
  let id := invoiceCount m + 1 in
  let inv := {| freelancer := caller; client := address_zero; amount := _amount;
                dueDate := _dueDate; isPaid := false; invoiceURI := _uri |} in
  let m' := apply m (TxRegister caller _amount _dueDate _uri) in
  registerInvoice caller _amount _dueDate _uri m = (Ok id m', []) /\
  invoiceCount m' = id /\
  invoices m' = <[id := inv]> (invoices m) /\
  logs m' = logs m ++ [InvoiceCreated id caller _amount] /\
  getInvoice id m' = (Ok inv m', []).
Proof.
  intros Hlt id inv m'. apply N.ltb_lt in Hlt.
  assert (Hm' : m' = registered m caller _amount _dueDate _uri).
  { subst m'. cbn [apply]. rewrite registerInvoice_unfold, Hlt. reflexivity. }
  rewrite Hm', registerInvoice_unfold, Hlt.
  repeat split.
  unfold getInvoice, load_invoice. now rewrite invoice_at_registered_eq.
Qed.

Lemma register_succeeds_witness :
  let m' := apply genesis (TxRegister Scenario.A 0 86400 "ipfs://QmExample") in
  let inv := {| freelancer := Scenario.A; client := address_zero; amount := 0;
                dueDate := 86400; isPaid := false;
                invoiceURI := "ipfs://QmExample" |} in
  invoiceCount genesis < MAX_UINT256 /\
  registerInvoice Scenario.A 0 86400 "ipfs://QmExample" genesis = (Ok 1 m', []) /\
  invoiceCount m' = 1 /\
  invoices m' = <[1 := inv]> (invoices genesis) /\
  logs m' = logs genesis ++ [InvoiceCreated 1 Scenario.A 0] /\
  getInvoice 1 m' = (Ok inv m', []).
Proof.
  split; [reflexivity|].
  apply (register_succeeds genesis Scenario.A 0 86400 "ipfs://QmExample").
  reflexivity.
Defined.

(** C7. Over every execution from deployment, with payments that succeed
    or fail interleaved at will, the identifiers carried by the
    [InvoiceCreated] events are exactly 1, 2, ..., [invoiceCount], in that
    order; a registration returns the count plus one, a slot that holds
    nothing yet; no transaction lowers the counter, and a failed payment
    leaves it where it was; a record once stored under an identifier keeps
    its terms through every later transaction. At [2^256 - 1] the counter
    stops rather than wrapping around to identifiers already in use. *)
Theorem identifiers_are_consecutive (txs : list Tx) :
  let m := replay txs in
  issued (logs m) = ids_upto (invoiceCount m) /\
  (forall sender _amount _dueDate _uri,
     registerInvoice sender _amount _dueDate _uri m =
     if invoiceCount m <? MAX_UINT256
     then (Ok (invoiceCount m + 1) (registered m sender _amount _dueDate _uri), [])
     else (Reverted Overflow, [])) /\
  (forall id, invoiceCount m < id -> invoices m !! id = None) /\
  (forall tx, invoiceCount m <= invoiceCount (apply m tx)) /\
  (forall sender _id token w e,
     fst (payInvoice (transferFrom w) sender _id token m) = Reverted e ->
     invoiceCount (apply m (TxPay sender _id token w)) = invoiceCount m) /\
  (forall tx id inv,
     invoices m !! id = Some inv ->
     exists inv', invoices (apply m tx) !! id = Some inv' /\ same_terms inv' inv).
Proof.
  intros m. destruct (replay_sound txs) as [W _]. fold m in W.
  split; [apply (wf_issued _ W)|].
  split; [intros; apply registerInvoice_unfold|].
  split; [intros id Hlt; now apply fresh_slot|].
  split; [intros tx; destruct (apply_sound m tx W) as [_ E]; apply (ev_count _ _ E)|].
  split.
  - intros sender _id token w e He. cbn [apply]. unfold commit. now rewrite He.
  - intros tx id inv H. destruct (apply_sound m tx W) as [_ E].
    destruct (ev_records _ _ E _ _ H) as (inv' & H' & T & _). eauto.
Qed.

Lemma identifiers_are_consecutive_witness :
  let txs := [TxRegister Scenario.A 500000000 86400 "ipfs://QmExample";
              TxPay Scenario.B 7 Scenario.usdc Scenario.honest;
              TxPay Scenario.B 1 Scenario.usdc Scenario.refusing;
              TxRegister Scenario.B 0 0 "";
              TxPay Scenario.B 1 Scenario.usdc Scenario.reentrant;
              TxRegister Scenario.A 1 2 "ipfs://QmThird"] in
  issued (logs (replay txs)) = [1; 2; 3; 4] /\
  invoiceCount (replay txs) = 4 /\
  issued (logs (replay txs)) = ids_upto (invoiceCount (replay txs)) /\
  invoiceCount (apply (replay txs) (TxPay Scenario.B 9 Scenario.usdc Scenario.honest))
    = invoiceCount (replay txs).
Proof.
  intros txs.
  pose proof (identifiers_are_consecutive txs) as (Hissued & _ & _ & _ & Hfail & _).
  split; [reflexivity|]. split; [reflexivity|]. split; [exact Hissued|].
  apply (Hfail Scenario.B 9 Scenario.usdc Scenario.honest NotFound). reflexivity.
Defined.

(** C8, as stated, fails when the ledger calls back into the registry:
    paying invoice 1 through [Scenario.meddling] succeeds, and afterwards the counter
    has moved from 2 to 3 and invoice 2 has become paid. *)
Lemma pay_touches_one_invoice_only_counterexample :
  let m := Scenario.two_invoices in
  let m' := apply m (TxPay Scenario.B 1 Scenario.usdc Scenario.meddling) in
  (fst (payInvoice (transferFrom Scenario.meddling) Scenario.B 1 Scenario.usdc m) = Ok tt m' /\
   invoiceCount m = 2 /\ invoiceCount m' = 3 /\
   isPaid (invoice_at m 2) = false /\ isPaid (invoice_at m' 2) = true) /\
  (pay_touches_one_invoice_only -> False).
Proof.
  split; [repeat split|].
  intros H.
  destruct (H Scenario.two_invoices
              (apply Scenario.two_invoices (TxPay Scenario.B 1 Scenario.usdc Scenario.meddling))
              Scenario.meddling Scenario.B Scenario.usdc 1) as [Hc _].
  - exists [TxRegister Scenario.A 500000000 86400 "ipfs://QmExample";
            TxRegister Scenario.A 250000000 86400 "ipfs://QmSecond"]. reflexivity.
  - reflexivity.
  - discriminate Hc.
Qed.

(** C8, amended. From any reachable state: every record keeps its
    [freelancer], [amount], [dueDate] and [invoiceURI] through every
    transaction and is never removed. A successful [payInvoice] on [_id]
    itself writes only [isPaid] and [client] of invoice [_id], before it
    calls the ledger, and writes no storage after the ledger returns, where
    invoice [_id] is still as [payInvoice] set it. So when the ledger leaves
    the registry as it found it, the mapping afterwards is the one before
    with only those two members of invoice [_id] changed, and the counter is
    the same; what else changes is the doing of [registerInvoice] and
    [payInvoice] calls the ledger made meanwhile. *)
Theorem pay_writes_paid_flag_and_client_only (m : Machine) :
  reachable m ->
  (forall tx id inv,
     invoices m !! id = Some inv ->
     exists inv', invoices (apply m tx) !! id = Some inv' /\ same_terms inv' inv) /\
  (forall w caller token _id m' t,
     payInvoice (transferFrom w) caller _id token m = (Ok tt m', t) ->
     let inv := invoice_at m _id in
     let m1 := marked m caller _id in
     (invoices m1 = <[_id := with_client caller (with_isPaid true inv)]> (invoices m) /\
      invoiceCount m1 = invoiceCount m /\ logs m1 = logs m) /\
     same_terms (with_client caller (with_isPaid true inv)) inv /\
     exists m2 t',
       transferFrom w token caller (freelancer inv) (amount inv) m1 = (Ok true m2, t') /\
       invoices m' = invoices m2 /\
       invoiceCount m' = invoiceCount m2 /\
       invoice_at m' _id = with_client caller (with_isPaid true inv) /\
       (m2 = m1 ->
        invoices m' = <[_id := with_client caller (with_isPaid true inv)]> (invoices m) /\
        invoiceCount m' = invoiceCount m)).
Proof.
  intros Hreach. pose proof (reachable_WF _ Hreach) as W. split.
  - intros tx id inv H. destruct (apply_sound m tx W) as [_ E].
    destruct (ev_records _ _ E _ _ H) as (inv' & H' & T & _). eauto.
  - intros w caller token _id m' t Hpay inv m1.
    split; [repeat split|]. split; [repeat split|].
    rewrite payInvoice_unfold in Hpay. fold inv m1 in Hpay.
    destruct (isPaid inv) eqn:Hp; [discriminate|].
    destruct (0 <? amount inv) eqn:Ha; [|discriminate].
    apply N.ltb_lt in Ha. cbv zeta in Hpay.
    pose proof (sound_transferFrom w token caller (freelancer inv) (amount inv)
                  m1 (WF_marked _ caller _ W Ha)) as [_ Hr].
    destruct (transferFrom w token caller (freelancer inv) (amount inv) m1)
      as [[[|] m2|r] t'] eqn:Hcall; try discriminate.
    injection Hpay as <- _. cbn [fst] in Hr. destruct Hr as [_ E].
    exists m2, t'. split; [reflexivity|]. split; [reflexivity|].
    split; [reflexivity|]. split.
    + rewrite invoice_at_settled. unfold inv. rewrite <- invoice_at_marked_eq.
      apply (evolves_paid _ _ _ E). unfold m1. now rewrite invoice_at_marked_eq.
    + intros ->. split; reflexivity.
Qed.

Lemma pay_writes_paid_flag_and_client_only_witness :
  let m := Scenario.two_invoices in
  let m' := apply m (TxPay Scenario.B 1 Scenario.usdc Scenario.honest) in
  let inv := invoice_at m 1 in
  fst (payInvoice (transferFrom Scenario.honest) Scenario.B 1 Scenario.usdc m)
    = Ok tt m' /\
  invoices m' = <[1 := with_client Scenario.B (with_isPaid true inv)]> (invoices m) /\
  invoiceCount m' = invoiceCount m /\
  invoice_at m' 1 = with_client Scenario.B (with_isPaid true inv) /\
  (exists inv', invoices m' !! 2 = Some inv' /\ same_terms inv' (invoice_at m 2)).
Proof.
  intros m m' inv.
  assert (Hreach : reachable m).
  { exists [TxRegister Scenario.A 500000000 86400 "ipfs://QmExample";
            TxRegister Scenario.A 250000000 86400 "ipfs://QmSecond"]. reflexivity. }
  destruct (pay_writes_paid_flag_and_client_only m Hreach) as [Hkeep Hpay].
  destruct (Hpay Scenario.honest Scenario.B Scenario.usdc 1 m'
              [TransferFromCall Scenario.usdc Scenario.B Scenario.A 500000000]
              eq_refl)
    as (_ & _ & m2 & t' & Hcall & _ & _ & Hinv & Hquiet).
  injection Hcall as <- _.
  destruct (Hquiet eq_refl) as [Hmap Hcount].
  split; [reflexivity|]. split; [exact Hmap|]. split; [exact Hcount|].
  split; [exact Hinv|].
  apply (Hkeep (TxPay Scenario.B 1 Scenario.usdc Scenario.honest) 2). reflexivity.
Defined.

(** C9. [getInvoice] changes nothing: it returns the state it was called in,
    and committing it leaves the machine as it was. In a reachable state it
    returns, for an identifier in 1..[invoiceCount], the record stored there
    in full, and for every other identifier (never created) the all-zero
    record: zero addresses, zero amount and due date, [isPaid = false], empty
    URI. It never reverts, so it does not signal that nothing is there. *)
Theorem getInvoice_reads_record (m : Machine) (_id : uint256) :
  reachable m ->
  getInvoice _id m = (Ok (invoice_at m _id) m, []) /\
  apply m (TxGet _id) = m /\
  (1 <= _id <= invoiceCount m -> invoices m !! _id = Some (invoice_at m _id)) /\
  (~ 1 <= _id <= invoiceCount m ->
   invoice_at m _id =
     {| freelancer := 0; client := 0; amount := 0; dueDate := 0;
        isPaid := false; invoiceURI := "" |}).
Proof.
  intros Hreach. pose proof (reachable_WF _ Hreach) as W.
  split; [reflexivity|]. split; [reflexivity|]. split.
  - intros Hin. apply (wf_dom _ W) in Hin as [inv Hinv].
    now rewrite (invoice_at_Some _ _ _ Hinv).
  - intros Hout. apply invoice_at_None.
    destruct (invoices m !! _id) eqn:E; [|reflexivity].
    exfalso. apply Hout. apply (wf_dom _ W). eexists. exact E.
Qed.

Lemma getInvoice_reads_record_witness :
  let m := Scenario.paid_invoice in
  (getInvoice 1 m =
     (Ok {| freelancer := Scenario.A; client := Scenario.B; amount := 500000000;
            dueDate := 86400; isPaid := true;
            invoiceURI := "ipfs://QmExample" |} m, []) /\
   getInvoice 2 m = (Ok zeroInvoice m, [])) /\
  (getInvoice 2 m = (Ok (invoice_at m 2) m, []) /\
   apply m (TxGet 2) = m /\
   (1 <= 2 <= invoiceCount m -> invoices m !! 2 = Some (invoice_at m 2)) /\
   (~ 1 <= 2 <= invoiceCount m -> invoice_at m 2 = zeroInvoice)).
Proof.
  split; [split; reflexivity|].
  apply (getInvoice_reads_record Scenario.paid_invoice 2).
  exists [TxRegister Scenario.A 500000000 86400 "ipfs://QmExample";
          TxPay Scenario.B 1 Scenario.usdc Scenario.honest].
  reflexivity.
Defined.

(** C10. The ledger is whatever address the caller passes. For an invoice
    that exists and is unpaid and for every address [token], [payInvoice]
    calls [transferFrom] on the code at [token], with the caller, the stored
    [freelancer] and the stored [amount]; it succeeds exactly when that call
    returns [true], and then the invoice is paid and the last event is
    [InvoicePaid (_id, caller)]. Nothing in the registry's state names a
    token, so any ledger whose [transferFrom] returns [true] settles the
    invoice. *)
Theorem any_ledger_settles
    (m : Machine) (w : World) (caller token : address) (_id : uint256) :
  let inv := invoice_at m _id in
  let r := transferFrom w token caller (freelancer inv) (amount inv)
             (marked m caller _id) in
  let m' := apply m (TxPay caller _id token w) in
  reachable m ->
  isPaid inv = false ->
  0 < amount inv ->
  snd (payInvoice (transferFrom w) caller _id token m) =
    TransferFromCall token caller (freelancer inv) (amount inv) :: snd r /\
  ((exists m2, fst r = Ok true m2) <->
   (exists m3, fst (payInvoice (transferFrom w) caller _id token m) = Ok tt m3)) /\
  (forall m2, fst r = Ok true m2 ->
     fst (payInvoice (transferFrom w) caller _id token m) = Ok tt m' /\
     isPaid (invoice_at m' _id) = true /\
     client (invoice_at m' _id) = caller /\
     logs m' = logs m2 ++ [InvoicePaid _id caller]).
Proof.
  intros inv r m' Hreach Hp Ha.
  pose proof (reachable_WF _ Hreach) as W.
  pose proof (sound_transferFrom w token caller (freelancer inv) (amount inv)
                (marked m caller _id) (WF_marked _ caller _ W Ha)) as [_ Hr].
  fold r in Hr.
  assert (Hpay : payInvoice (transferFrom w) caller _id token m =
    match r with
    | (Ok true m2, t) =>
        (Ok tt (settled m2 caller _id),
         TransferFromCall token caller (freelancer inv) (amount inv) :: t)
    | (Ok false _, t) =>
        (Reverted TransferRejected,
         TransferFromCall token caller (freelancer inv) (amount inv) :: t)
    | (Reverted e, t) =>
        (Reverted e,
         TransferFromCall token caller (freelancer inv) (amount inv) :: t)
    end).
  { rewrite payInvoice_unfold. fold inv. rewrite Hp.
    apply N.ltb_lt in Ha. rewrite Ha. reflexivity. }
  unfold m'. cbn [apply]. rewrite Hpay.
  destruct r as [[[|] m2|e] t]; cbn [fst snd commit] in *.
  - split; [reflexivity|]. split; [split; eauto|].
    intros m2' [= <-]. destruct Hr as [_ E].
    assert (Hkept : invoice_at m2 _id = with_client caller (with_isPaid true inv)).
    { unfold inv. rewrite <- invoice_at_marked_eq. apply (evolves_paid _ _ _ E).
      now rewrite invoice_at_marked_eq. }
    rewrite invoice_at_settled, Hkept. repeat split.
  - split; [reflexivity|]. split; [|intros ?; discriminate].
    split; intros [? ?]; discriminate.
  - split; [reflexivity|]. split; [|intros ?; discriminate].
    split; intros [? ?]; discriminate.
Qed.

Lemma any_ledger_settles_witness :
  let m := Scenario.one_invoice in
  let other_token : address := 4242 in
  fst (payInvoice (transferFrom Scenario.honest) Scenario.B 1 Scenario.usdc m)
    = Ok tt (apply m (TxPay Scenario.B 1 Scenario.usdc Scenario.honest)) /\
  fst (payInvoice (transferFrom Scenario.honest) Scenario.B 1 other_token m)
    = Ok tt (apply m (TxPay Scenario.B 1 other_token Scenario.honest)) /\
  snd (payInvoice (transferFrom Scenario.honest) Scenario.B 1 other_token m)
    = [TransferFromCall other_token Scenario.B Scenario.A 500000000] /\
  isPaid (invoice_at (apply m (TxPay Scenario.B 1 other_token Scenario.honest)) 1)
    = true.
Proof.
  intros m other_token.
  assert (Hreach : reachable m).
  { exists [TxRegister Scenario.A 500000000 86400 "ipfs://QmExample"]. reflexivity. }
  destruct (any_ledger_settles m Scenario.honest Scenario.B Scenario.usdc 1
              Hreach eq_refl eq_refl) as (_ & _ & H1).
  destruct (any_ledger_settles m Scenario.honest Scenario.B other_token 1
              Hreach eq_refl eq_refl) as (Htrace & _ & H2).
  destruct (H1 _ eq_refl) as (Hok1 & _).
  destruct (H2 _ eq_refl) as (Hok2 & Hpaid & _).
  split; [exact Hok1|]. split; [exact Hok2|]. split; [exact Htrace|]. exact Hpaid.
Defined.

(** * Further properties of the contract *)

(** ** Carrying a property of machines through every execution *)

Section Invariants.

Variable I : Machine -> Prop.

Hypothesis I_registered : forall m sender _amount _dueDate _uri,
  WF m -> I m -> invoiceCount m < MAX_UINT256 ->
  I (registered m sender _amount _dueDate _uri).

Hypothesis I_marked : forall m sender _id,
  WF m -> I m ->
  isPaid (invoice_at m _id) = false -> 0 < amount (invoice_at m _id) ->
  I (marked m sender _id).

Hypothesis I_settled : forall m m2 sender _id,
  WF m -> isPaid (invoice_at m _id) = false -> 0 < amount (invoice_at m _id) ->
  WF m2 -> evolves (marked m sender _id) m2 -> I m2 ->
  I (settled m2 sender _id).

Lemma keeps_registerInvoice sender _amount _dueDate _uri :
  keeps I (registerInvoice sender _amount _dueDate _uri).
Proof.
  intros m W Hi. rewrite registerInvoice_unfold.
  destruct (invoiceCount m <? MAX_UINT256) eqn:Hlt; cbn [fst]; [|exact Logic.I].
  apply N.ltb_lt in Hlt. now apply I_registered.
Qed.

Lemma keeps_payInvoice ext sender _id _usdcAddress :
  (forall t s p a, sound (ext t s p a)) ->
  (forall t s p a, keeps I (ext t s p a)) ->
  keeps I (payInvoice ext sender _id _usdcAddress).
Proof.
  intros Hsound Hkeeps m W Hi. rewrite payInvoice_unfold.
  destruct (isPaid (invoice_at m _id)) eqn:Hp; [exact Logic.I|].
  destruct (0 <? amount (invoice_at m _id)) eqn:Ha; [|exact Logic.I].
  apply N.ltb_lt in Ha. cbv zeta.
  pose proof (WF_marked _ sender _ W Ha) as W1.
  pose proof (I_marked _ sender _ W Hi Hp Ha) as Hi1.
  pose proof (Hsound _usdcAddress sender (freelancer (invoice_at m _id))
                (amount (invoice_at m _id)) _ W1) as [_ Hs].
  pose proof (Hkeeps _usdcAddress sender (freelancer (invoice_at m _id))
                (amount (invoice_at m _id)) _ W1 Hi1) as Hk.
  destruct (ext _ _ _ _ _) as [[[|] m2|r] t]; cbn [fst] in *; try exact Logic.I.
  destruct Hs as [W2 E2]. exact (I_settled m m2 sender _id W Hp Ha W2 E2 Hk).
Qed.

Lemma keeps_run L : keeps I (run L).
Proof.
  induction L as [success|r|sender a d u k IHk|sender _id tok w IHw k IHk|_id k IHk];
    intros m W Hi.
  - exact Hi.
  - exact Logic.I.
  - rewrite run_ReenterRegister_unfold.
    pose proof (sound_registerInvoice sender a d u m W) as [_ Hs].
    pose proof (keeps_registerInvoice sender a d u m W Hi) as Hk.
    destruct (registerInvoice sender a d u m) as [[id m1|e] t]; cbn [fst] in *.
    + destruct Hs as [W1 _]. specialize (IHk (inr id) m1 W1 Hk).
      destruct (run (k (inr id)) m1) as [res t']. exact IHk.
    + specialize (IHk (inl e) m W Hi).
      destruct (run (k (inl e)) m) as [res t']. exact IHk.
  - rewrite run_ReenterPay_unfold.
    pose proof (sound_payInvoice (transferFrom w) sender _id tok
                  (sound_transferFrom w) m W) as [_ Hs].
    pose proof (keeps_payInvoice (transferFrom w) sender _id tok
                  (sound_transferFrom w) (fun t s p a => IHw t s p a) m W Hi) as Hk.
    destruct (payInvoice (transferFrom w) sender _id tok m) as [[[] m1|e] t];
      cbn [fst] in *.
    + destruct Hs as [W1 _]. specialize (IHk None m1 W1 Hk).
      destruct (run (k None) m1) as [res t']. exact IHk.
    + specialize (IHk (Some e) m W Hi).
      destruct (run (k (Some e)) m) as [res t']. exact IHk.
  - rewrite run_ReenterGet_unfold. now apply IHk.
Qed.

Lemma keeps_apply m tx : WF m -> I m -> I (apply m tx).
Proof.
  intros W Hi. destruct tx as [sender a d u|sender _id tok w|_id];
    cbn [apply]; unfold commit.
  - pose proof (keeps_registerInvoice sender a d u m W Hi) as Hk.
    destruct (fst _); assumption.
  - pose proof (keeps_payInvoice (transferFrom w) sender _id tok
                  (sound_transferFrom w)
                  (fun t s p a => keeps_run (w t s p a)) m W Hi) as Hk.
    destruct (fst _); assumption.
  - exact Hi.
Qed.

Lemma keeps_continue txs : forall m, WF m -> I m -> I (continue m txs).
Proof.
  induction txs as [|tx txs IH]; intros m W Hi; [exact Hi|].
  cbn [continue fold_left]. apply IH.
  - now apply apply_sound.
  - now apply keeps_apply.
Qed.

Lemma keeps_reachable : I genesis -> forall m, reachable m -> I m.
Proof.
  intros H0 m [txs <-]. apply (keeps_continue txs genesis WF_genesis H0).
Qed.

End Invariants.

Lemma WF_continue txs : forall m, WF m -> WF (continue m txs).
Proof.
  induction txs as [|tx txs IH]; intros m W; [exact W|].
  cbn [continue fold_left]. apply IH. now apply apply_sound.
Qed.

Lemma evolves_continue txs : forall m, WF m -> evolves m (continue m txs).
Proof.
  induction txs as [|tx txs IH]; intros m W; [apply evolves_refl|].
  cbn [continue fold_left]. destruct (apply_sound m tx W) as [W' E].
  eapply evolves_trans; [exact E|]. now apply IH.
Qed.

(** ** Events and lists *)

Lemma In_issued id f a l : In (InvoiceCreated id f a) l -> In id (issued l).
Proof.
  induction l as [|e l IH]; [intros []|].
  intros [->|Hin]; [now left|].
  destruct e; cbn; [right|]; auto.
Qed.

Lemma issued_In id l : In id (issued l) -> exists f a, In (InvoiceCreated id f a) l.
Proof.
  induction l as [|e l IH]; [intros []|].
  destruct e as [id' f a|id' c]; cbn.
  - intros [->|Hin]; [exists f, a; now left|].
    destruct (IH Hin) as (f' & a' & H'). exists f', a'. now right.
  - intros Hin. destruct (IH Hin) as (f' & a' & H'). exists f', a'. now right.
Qed.

Lemma paid_count_In id l :
  (0 < paid_count id l)%nat -> exists c, In (InvoicePaid id c) l.
Proof.
  unfold paid_count. induction l as [|e l IH]; cbn; [lia|].
  destruct (paid_event_of id e) eqn:He.
  - intros _. destruct e as [|id' c]; [discriminate|].
    cbn in He. apply N.eqb_eq in He. subst id'. exists c. now left.
  - intros Hpos. destruct (IH Hpos) as [c Hc]. exists c. now right.
Qed.

Lemma app_snoc_cases {A} (l l1 l2 : list A) (e x : A) :
  l ++ [e] = l1 ++ x :: l2 ->
  (l1 = l /\ x = e /\ l2 = []) \/
  (exists l2', l2 = l2' ++ [e] /\ l = l1 ++ x :: l2').
Proof.
  destruct l2 as [|y l2 _] using rev_ind; intros H.
  - left. apply app_inj_tail in H as [-> ->]. auto.
  - right. exists l2.
    change (l1 ++ x :: l2 ++ [y]) with (l1 ++ (x :: l2) ++ [y]) in H.
    rewrite app_assoc in H. apply app_inj_tail in H as [-> ->]. auto.
Qed.

Lemma length_ids_upto n : length (ids_upto n) = N.to_nat n.
Proof. unfold ids_upto. now rewrite length_map, length_seq. Qed.

Lemma stored_in_range m id inv :
  WF m -> invoices m !! id = Some inv -> 1 <= id <= invoiceCount m.
Proof. intros W H. apply (wf_dom _ W). eexists. exact H. Qed.

Lemma existing_is_stored m id :
  0 < amount (invoice_at m id) -> invoices m !! id = Some (invoice_at m id).
Proof.
  unfold invoice_at. destruct (invoices m !! id); cbn; [reflexivity|lia].
Qed.

(** ** Four more invariants, step by step *)

Lemma unpaid_unclaimed_registered m sender _amount _dueDate _uri :
  WF m -> unpaid_unclaimed m -> invoiceCount m < MAX_UINT256 ->
  unpaid_unclaimed (registered m sender _amount _dueDate _uri).
Proof.
  intros _ Hi _ id. destruct (N.eq_dec id (invoiceCount m + 1)) as [->|Hne].
  - now rewrite invoice_at_registered_eq.
  - rewrite invoice_at_registered_ne by assumption. apply Hi.
Qed.

Lemma unpaid_unclaimed_marked m sender _id :
  WF m -> unpaid_unclaimed m ->
  isPaid (invoice_at m _id) = false -> 0 < amount (invoice_at m _id) ->
  unpaid_unclaimed (marked m sender _id).
Proof.
  intros _ Hi _ _ id. destruct (N.eq_dec id _id) as [->|Hne].
  - rewrite invoice_at_marked_eq. discriminate.
  - rewrite invoice_at_marked_ne by assumption. apply Hi.
Qed.

Lemma unpaid_unclaimed_settled m m2 sender _id :
  WF m -> isPaid (invoice_at m _id) = false -> 0 < amount (invoice_at m _id) ->
  WF m2 -> evolves (marked m sender _id) m2 -> unpaid_unclaimed m2 ->
  unpaid_unclaimed (settled m2 sender _id).
Proof. intros _ _ _ _ _ Hi id. rewrite invoice_at_settled. apply Hi. Qed.

Lemma logs_agree_registered m sender _amount _dueDate _uri :
  WF m -> logs_agree m -> invoiceCount m < MAX_UINT256 ->
  logs_agree (registered m sender _amount _dueDate _uri).
Proof.
  intros W Hi _ e Hin. cbn [registered logs] in Hin.
  apply in_app_or in Hin as [Hin|[<-|[]]].
  - specialize (Hi e Hin). destruct e as [id f a|id c]; cbn [event_agrees] in *.
    + assert (Hne : id <> invoiceCount m + 1).
      { apply In_issued in Hin. rewrite (wf_issued _ W) in Hin.
        apply elem_of_ids_upto in Hin. lia. }
      now rewrite invoice_at_registered_ne.
    + assert (Hne : id <> invoiceCount m + 1).
      { intros ->. rewrite (invoice_at_None m) in Hi; [destruct Hi; discriminate|].
        apply fresh_slot; [assumption|lia]. }
      now rewrite invoice_at_registered_ne.
  - cbn [event_agrees]. now rewrite invoice_at_registered_eq.
Qed.

Lemma logs_agree_marked m sender _id :
  WF m -> logs_agree m ->
  isPaid (invoice_at m _id) = false -> 0 < amount (invoice_at m _id) ->
  logs_agree (marked m sender _id).
Proof.
  intros _ Hi Hp _ e Hin. cbn [marked logs] in Hin. specialize (Hi e Hin).
  destruct e as [id f a|id c]; cbn [event_agrees] in *;
    (destruct (N.eq_dec id _id) as [->|Hne];
     [rewrite invoice_at_marked_eq|now rewrite invoice_at_marked_ne]).
  - exact Hi.
  - destruct Hi as [Hi _]. congruence.
Qed.

Lemma logs_agree_settled m m2 sender _id :
  WF m -> isPaid (invoice_at m _id) = false -> 0 < amount (invoice_at m _id) ->
  WF m2 -> evolves (marked m sender _id) m2 -> logs_agree m2 ->
  logs_agree (settled m2 sender _id).
Proof.
  intros _ _ _ _ E Hi e Hin. cbn [settled logs] in Hin.
  assert (Hagree : forall e', event_agrees (settled m2 sender _id) e' = event_agrees m2 e')
    by (intros []; reflexivity).
  rewrite Hagree. apply in_app_or in Hin as [Hin|[<-|[]]]; [now apply Hi|].
  cbn [event_agrees].
  rewrite (evolves_paid _ _ _ E) by now rewrite invoice_at_marked_eq.
  now rewrite invoice_at_marked_eq.
Qed.

Lemma created_before_paid_registered m sender _amount _dueDate _uri :
  WF m -> created_before_paid (logs m) -> invoiceCount m < MAX_UINT256 ->
  created_before_paid (logs (registered m sender _amount _dueDate _uri)).
Proof.
  intros _ Hi _ l1 l2 id c Hsplit. cbn [registered logs] in Hsplit.
  apply app_snoc_cases in Hsplit as [(_ & Heq & _)|(l2' & _ & Hl)];
    [discriminate|]. eauto.
Qed.

Lemma created_before_paid_marked m sender _id :
  WF m -> created_before_paid (logs m) ->
  isPaid (invoice_at m _id) = false -> 0 < amount (invoice_at m _id) ->
  created_before_paid (logs (marked m sender _id)).
Proof. intros _ Hi _ _. exact Hi. Qed.

Lemma created_before_paid_settled m m2 sender _id :
  WF m -> isPaid (invoice_at m _id) = false -> 0 < amount (invoice_at m _id) ->
  WF m2 -> evolves (marked m sender _id) m2 -> created_before_paid (logs m2) ->
  created_before_paid (logs (settled m2 sender _id)).
Proof.
  intros _ _ _ W2 E Hi l1 l2 id c Hsplit. cbn [settled logs] in Hsplit.
  apply app_snoc_cases in Hsplit as [(-> & Heq & _)|(l2' & _ & Hl)]; [|eauto].
  injection Heq as -> ->.
  destruct (ev_records _ _ E _id (with_client sender (with_isPaid true (invoice_at m _id))))
    as (inv' & H' & _).
  { cbn [marked invoices]. apply lookup_insert_eq. }
  apply issued_In. rewrite (wf_issued _ W2). apply elem_of_ids_upto.
  eapply stored_in_range; eassumption.
Qed.

Lemma counted_registered m sender _amount _dueDate _uri :
  WF m -> counted m -> invoiceCount m < MAX_UINT256 ->
  counted (registered m sender _amount _dueDate _uri).
Proof.
  intros W Hi _. unfold counted in *. cbn [registered invoices invoiceCount].
  rewrite map_size_insert_None by (apply fresh_slot; [assumption|lia]).
  rewrite Hi. lia.
Qed.

Lemma counted_marked m sender _id :
  WF m -> counted m ->
  isPaid (invoice_at m _id) = false -> 0 < amount (invoice_at m _id) ->
  counted (marked m sender _id).
Proof.
  intros _ Hi _ Ha. unfold counted in *. cbn [marked invoices invoiceCount].
  rewrite map_size_insert_Some; [exact Hi|].
  eexists. apply existing_is_stored. exact Ha.
Qed.

Lemma counted_settled m m2 sender _id :
  WF m -> isPaid (invoice_at m _id) = false -> 0 < amount (invoice_at m _id) ->
  WF m2 -> evolves (marked m sender _id) m2 -> counted m2 ->
  counted (settled m2 sender _id).
Proof. intros _ _ _ _ _ Hi. exact Hi. Qed.

Lemma landing_ticks k : forall p,
  (p < Landing.steps_length)%nat ->
  fold_left Landing.setActiveStep (repeat Landing.Tick k) p =
  ((p + k) mod Landing.steps_length)%nat.
Proof.
  unfold Landing.steps_length.
  induction k as [|k IH]; intros p Hp; cbn [repeat fold_left].
  - rewrite Nat.add_0_r. symmetry. now apply Nat.mod_small.
  - cbn [Landing.setActiveStep]. unfold Landing.steps_length. rewrite IH.
    + rewrite Nat.Div0.add_mod_idemp_l. f_equal. lia.
    + apply Nat.mod_upper_bound. lia.
Qed.

Lemma landing_in_range signals p :
  (p < Landing.steps_length)%nat ->
  (fold_left Landing.setActiveStep signals p < Landing.steps_length)%nat.
Proof.
  revert p. induction signals as [|s signals IH]; intros p Hp; [exact Hp|].
  cbn [fold_left]. apply IH. destruct s; cbn [Landing.setActiveStep].
  - apply Nat.mod_upper_bound. unfold Landing.steps_length. lia.
  - unfold Landing.steps_length. lia.
Qed.

(** * Further properties, proved *)

(** X1. When the code at [_usdcAddress] reverts instead of returning
    [false], [payInvoice] on an existing unpaid invoice reverts with the
    ledger's own revert data, not with "USDC transfer failed. Check
    allowance."; the committed state is the state before the call, so the
    invoice is still unpaid. *)
Theorem ledger_revert_bubbles
    (m : Machine) (w : World) (caller token : address) (_id : uint256)
    (r : Revert) (t : list TraceItem) :
  let inv := invoice_at m _id in
  isPaid inv = false ->
  0 < amount inv ->
  transferFrom w token caller (freelancer inv) (amount inv) (marked m caller _id)
    = (Reverted r, t) ->
  payInvoice (transferFrom w) caller _id token m =
    (Reverted r, TransferFromCall token caller (freelancer inv) (amount inv) :: t) /\
  apply m (TxPay caller _id token w) = m /\
  isPaid (invoice_at (apply m (TxPay caller _id token w)) _id) = false.
Proof.
  intros inv Hp Ha Hcall.
  assert (Hpay : payInvoice (transferFrom w) caller _id token m =
    (Reverted r, TransferFromCall token caller (freelancer inv) (amount inv) :: t)).
  { rewrite payInvoice_unfold. fold inv. rewrite Hp.
    apply N.ltb_lt in Ha. rewrite Ha. cbv zeta. now rewrite Hcall. }
  assert (Hm : apply m (TxPay caller _id token w) = m).
  { cbn [apply]. now rewrite Hpay. }
  rewrite Hm. auto.
Qed.

Lemma ledger_revert_bubbles_witness :
  let m := Scenario.one_invoice in
  let reverting : World :=
    fun _ _ _ _ => Throw (Error "ERC20: insufficient allowance") in
  payInvoice (transferFrom reverting) Scenario.B 1 Scenario.usdc m =
    (Reverted (Error "ERC20: insufficient allowance"),
     [TransferFromCall Scenario.usdc Scenario.B Scenario.A 500000000]) /\
  apply m (TxPay Scenario.B 1 Scenario.usdc reverting) = m /\
  isPaid (invoice_at (apply m (TxPay Scenario.B 1 Scenario.usdc reverting)) 1) = false.
Proof.
  apply (ledger_revert_bubbles Scenario.one_invoice
           (fun _ _ _ _ => Throw (Error "ERC20: insufficient allowance"))
           Scenario.B Scenario.usdc 1 (Error "ERC20: insufficient allowance") []);
    reflexivity.
Defined.

(** X2. In a reachable state [registerInvoice] has one way to fail: the
    counter stands at [2^256 - 1], the checked increment panics with code
    0x11 and nothing is written. Otherwise it succeeds and returns the
    counter plus one. *)
Theorem register_fails_only_on_overflow
    (m : Machine) (sender : address) (_amount _dueDate : uint256) (_uri : string) :
  reachable m ->
  (invoiceCount m < MAX_UINT256 /\
   exists m', registerInvoice sender _amount _dueDate _uri m
              = (Ok (invoiceCount m + 1) m', [])) \/
  (invoiceCount m = MAX_UINT256 /\
   registerInvoice sender _amount _dueDate _uri m = (Reverted (Panic 17), []) /\
   apply m (TxRegister sender _amount _dueDate _uri) = m).
Proof.
  intros Hreach. pose proof (wf_count _ (reachable_WF _ Hreach)) as Hle.
  cbn [apply]. rewrite registerInvoice_unfold.
  destruct (invoiceCount m <? MAX_UINT256) eqn:Hlt.
  - left. apply N.ltb_lt in Hlt. eauto.
  - right. apply N.ltb_ge in Hlt. split; [lia|]. split; reflexivity.
Qed.

Lemma register_fails_only_on_overflow_witness :
  (invoiceCount Scenario.paid_invoice < MAX_UINT256 /\
   exists m', registerInvoice Scenario.A 0 0 "" Scenario.paid_invoice
              = (Ok 2 m', [])) \/
  (invoiceCount Scenario.paid_invoice = MAX_UINT256 /\
   registerInvoice Scenario.A 0 0 "" Scenario.paid_invoice
     = (Reverted (Panic 17), []) /\
   apply Scenario.paid_invoice (TxRegister Scenario.A 0 0 "") = Scenario.paid_invoice).
Proof.
  apply (register_fails_only_on_overflow Scenario.paid_invoice Scenario.A 0 0 "").
  exists [TxRegister Scenario.A 500000000 86400 "ipfs://QmExample";
          TxPay Scenario.B 1 Scenario.usdc Scenario.honest].
  reflexivity.
Defined.

(** X3. In every reachable state an invoice that is not paid has
    [client = address(0)]: the member is written only by [payInvoice], in
    the same step that sets [isPaid]. *)
Theorem unpaid_invoice_has_no_client (m : Machine) (_id : uint256) :
  reachable m ->
  isPaid (invoice_at m _id) = false ->
  client (invoice_at m _id) = address_zero.
Proof.
  intros Hreach. revert _id.
  apply (keeps_reachable unpaid_unclaimed unpaid_unclaimed_registered
           unpaid_unclaimed_marked unpaid_unclaimed_settled); [|exact Hreach].
  intros id _. unfold invoice_at. cbn. now rewrite lookup_empty.
Qed.

Lemma unpaid_invoice_has_no_client_witness :
  isPaid (invoice_at Scenario.two_invoices 2) = false /\
  client (invoice_at Scenario.two_invoices 2) = address_zero.
Proof.
  split; [reflexivity|].
  apply (unpaid_invoice_has_no_client Scenario.two_invoices 2).
  - exists [TxRegister Scenario.A 500000000 86400 "ipfs://QmExample";
            TxRegister Scenario.A 250000000 86400 "ipfs://QmSecond"].
    reflexivity.
  - reflexivity.
Defined.

(** X4. In every reachable state the log and the storage tell the same
    story. An [InvoiceCreated (id, f, a)] event means invoice [id] has
    freelancer [f] and amount [a]; an [InvoicePaid (id, c)] event means
    invoice [id] is paid and its client is [c]. Conversely every stored
    record has its [InvoiceCreated] event and every paid record its
    [InvoicePaid] event naming its client. *)
Theorem events_describe_storage (m : Machine) :
  reachable m ->
  (forall id f a, In (InvoiceCreated id f a) (logs m) ->
     freelancer (invoice_at m id) = f /\ amount (invoice_at m id) = a) /\
  (forall id c, In (InvoicePaid id c) (logs m) ->
     isPaid (invoice_at m id) = true /\ client (invoice_at m id) = c) /\
  (forall id inv, invoices m !! id = Some inv ->
     In (InvoiceCreated id (freelancer inv) (amount inv)) (logs m)) /\
  (forall id, isPaid (invoice_at m id) = true ->
     In (InvoicePaid id (client (invoice_at m id))) (logs m)).
Proof.
  intros Hreach. pose proof (reachable_WF _ Hreach) as W.
  assert (Hagree : logs_agree m).
  { apply (keeps_reachable logs_agree logs_agree_registered
             logs_agree_marked logs_agree_settled); [|exact Hreach].
    intros e []. }
  split; [|split; [|split]].
  - intros id f a Hin. exact (Hagree _ Hin).
  - intros id c Hin. exact (Hagree _ Hin).
  - intros id inv Hinv.
    assert (Hin : In id (issued (logs m))).
    { rewrite (wf_issued _ W). apply elem_of_ids_upto.
      eapply stored_in_range; eassumption. }
    apply issued_In in Hin as (f & a & Hin).
    destruct (Hagree _ Hin) as [<- <-].
    now rewrite (invoice_at_Some _ _ _ Hinv) in Hin.
  - intros id Hp.
    pose proof (reachable_paid_count m id Hreach) as Hcount.
    rewrite Hp in Hcount. cbn in Hcount.
    destruct (paid_count_In id (logs m)) as [c Hin]; [lia|].
    destruct (Hagree _ Hin) as [_ <-]. exact Hin.
Qed.

Lemma events_describe_storage_witness :
  let m := Scenario.paid_invoice in
  logs m = [InvoiceCreated 1 Scenario.A 500000000; InvoicePaid 1 Scenario.B] /\
  (freelancer (invoice_at m 1) = Scenario.A /\ amount (invoice_at m 1) = 500000000) /\
  (isPaid (invoice_at m 1) = true /\ client (invoice_at m 1) = Scenario.B) /\
  In (InvoicePaid 1 (client (invoice_at m 1))) (logs m).
Proof.
  intros m.
  assert (Hreach : reachable m).
  { exists [TxRegister Scenario.A 500000000 86400 "ipfs://QmExample";
            TxPay Scenario.B 1 Scenario.usdc Scenario.honest]. reflexivity. }
  destruct (events_describe_storage m Hreach) as (Hc & Hp & _ & Hq).
  split; [reflexivity|]. split; [|split].
  - apply Hc. left. reflexivity.
  - apply Hp. right. left. reflexivity.
  - apply Hq. reflexivity.
Defined.

(** X5. In the log of every reachable state an [InvoicePaid] event for an
    identifier comes after an [InvoiceCreated] event for the same
    identifier: no invoice is reported paid before it is reported created,
    also when the events come from calls a ledger made during a payment. *)
Theorem paid_event_follows_created_event
    (m : Machine) (l1 l2 : list Event) (_id : uint256) (payer : address) :
  reachable m ->
  logs m = l1 ++ InvoicePaid _id payer :: l2 ->
  exists f a, In (InvoiceCreated _id f a) l1.
Proof.
  intros Hreach. revert l1 l2 _id payer.
  change (created_before_paid (logs m)).
  apply (keeps_reachable (fun m => created_before_paid (logs m))
           created_before_paid_registered created_before_paid_marked
           created_before_paid_settled); [|exact Hreach].
  intros l1 l2 id c H. cbn in H. destruct l1; discriminate.
Qed.

Lemma paid_event_follows_created_event_witness :
  let m := replay [TxRegister Scenario.A 500000000 86400 "ipfs://QmExample";
                   TxPay Scenario.B 1 Scenario.usdc Scenario.reentrant] in
  logs m = [InvoiceCreated 1 Scenario.A 500000000;
            InvoiceCreated 2 Scenario.usdc 7] ++
           InvoicePaid 1 Scenario.B :: [] /\
  exists f a, In (InvoiceCreated 1 f a)
                 [InvoiceCreated 1 Scenario.A 500000000;
                  InvoiceCreated 2 Scenario.usdc 7].
Proof.
  intros m. split; [reflexivity|].
  apply (paid_event_follows_created_event m
           [InvoiceCreated 1 Scenario.A 500000000; InvoiceCreated 2 Scenario.usdc 7]
           [] 1 Scenario.B).
  - exists [TxRegister Scenario.A 500000000 86400 "ipfs://QmExample";
            TxPay Scenario.B 1 Scenario.usdc Scenario.reentrant]. reflexivity.
  - reflexivity.
Defined.

(** X6. In every reachable state [invoiceCount] is the number of records
    the mapping holds and the number of [InvoiceCreated] events logged:
    payments, failed calls and calls made by ledgers never add or drop a
    record. *)
Theorem invoiceCount_counts_records (m : Machine) :
  reachable m ->
  size (invoices m) = N.to_nat (invoiceCount m) /\
  length (issued (logs m)) = N.to_nat (invoiceCount m).
Proof.
  intros Hreach. split.
  - apply (keeps_reachable counted counted_registered counted_marked
             counted_settled); [|exact Hreach].
    unfold counted. cbn. apply map_size_empty.
  - rewrite (wf_issued _ (reachable_WF _ Hreach)). apply length_ids_upto.
Qed.

Lemma invoiceCount_counts_records_witness :
  let m := replay [TxRegister Scenario.A 500000000 86400 "ipfs://QmExample";
                   TxPay Scenario.B 3 Scenario.usdc Scenario.honest;
                   TxPay Scenario.B 1 Scenario.usdc Scenario.reentrant] in
  invoiceCount m = 2 /\
  size (invoices m) = N.to_nat (invoiceCount m) /\
  length (issued (logs m)) = N.to_nat (invoiceCount m).
Proof.
  intros m. split; [reflexivity|].
  apply (invoiceCount_counts_records m).
  exists [TxRegister Scenario.A 500000000 86400 "ipfs://QmExample";
          TxPay Scenario.B 3 Scenario.usdc Scenario.honest;
          TxPay Scenario.B 1 Scenario.usdc Scenario.reentrant].
  reflexivity.
Defined.

(** X7. Register, pay, and whatever follows. From a reachable state with
    room in the counter, registering an invoice with a nonzero amount and
    then paying it through a ledger whose [transferFrom] returns [true]
    leaves the record with the registered terms, [isPaid = true] and
    [client] = the payer; after any further transactions the record is
    still exactly that, and every further [payInvoice] on it fails with
    "Invoice already paid" and changes nothing. *)
Theorem registered_invoice_is_paid_for_good
    (m : Machine) (payee payer token : address) (_amount _dueDate : uint256)
    (_uri : string) (w : World) (m2 : Machine) (t : list TraceItem)
    (txs : list Tx) :
  let id := invoiceCount m + 1 in
  let m1 := apply m (TxRegister payee _amount _dueDate _uri) in
  let m3 := continue (apply m1 (TxPay payer id token w)) txs in
  reachable m ->
  invoiceCount m < MAX_UINT256 ->
  0 < _amount ->
  transferFrom w token payer payee _amount (marked m1 payer id) = (Ok true m2, t) ->
  invoice_at m3 id =
    {| freelancer := payee; client := payer; amount := _amount;
       dueDate := _dueDate; isPaid := true; invoiceURI := _uri |} /\
  (forall ext sender token',
     payInvoice ext sender id token' m3 = (Reverted AlreadyPaid, [])) /\
  (forall sender token' w', apply m3 (TxPay sender id token' w') = m3).
Proof.
  intros id m1 m3 Hreach Hlt Ha Hcall.
  pose proof (reachable_WF _ Hreach) as W.
  assert (Hm1 : m1 = registered m payee _amount _dueDate _uri).
  { unfold m1. cbn [apply]. rewrite registerInvoice_unfold.
    apply N.ltb_lt in Hlt. now rewrite Hlt. }
  assert (W1 : WF m1) by (rewrite Hm1; now apply WF_registered).
  assert (Hrec : invoice_at m1 id =
    {| freelancer := payee; client := address_zero; amount := _amount;
       dueDate := _dueDate; isPaid := false; invoiceURI := _uri |}).
  { rewrite Hm1. apply invoice_at_registered_eq. }
  assert (Ha1 : 0 < amount (invoice_at m1 id)) by now rewrite Hrec.
  assert (Hpay : apply m1 (TxPay payer id token w) = settled m2 payer id).
  { cbn [apply]. rewrite payInvoice_unfold, Hrec. cbn [isPaid amount freelancer].
    apply N.ltb_lt in Ha. rewrite Ha. cbv zeta. now rewrite Hcall. }
  pose proof (sound_transferFrom w token payer payee _amount
                (marked m1 payer id) (WF_marked _ payer _ W1 Ha1)) as [_ Hs].
  rewrite Hcall in Hs. cbn [fst] in Hs. destruct Hs as [W2 E2].
  assert (Hpaid : invoice_at (settled m2 payer id) id =
    {| freelancer := payee; client := payer; amount := _amount;
       dueDate := _dueDate; isPaid := true; invoiceURI := _uri |}).
  { rewrite invoice_at_settled.
    rewrite (evolves_paid _ _ _ E2) by now rewrite invoice_at_marked_eq.
    now rewrite invoice_at_marked_eq, Hrec. }
  assert (H3 : invoice_at m3 id = invoice_at (settled m2 payer id) id).
  { unfold m3. rewrite Hpay.
    apply (evolves_paid _ _ _ (evolves_continue txs _ (WF_settled _ payer id W2))).
    now rewrite Hpaid. }
  assert (Hp3 : isPaid (invoice_at m3 id) = true) by now rewrite H3, Hpaid.
  split; [now rewrite H3|]. split.
  - intros ext sender token'. now apply payInvoice_on_paid.
  - intros sender token' w'. cbn [apply]. now rewrite payInvoice_on_paid.
Qed.

Lemma registered_invoice_is_paid_for_good_witness :
  let m1 := apply genesis (TxRegister Scenario.A 500000000 86400 "ipfs://QmExample") in
  let m3 := continue (apply m1 (TxPay Scenario.B 1 Scenario.usdc Scenario.honest))
              [TxPay Scenario.A 1 Scenario.usdc Scenario.honest;
               TxRegister Scenario.B 1 2 "";
               TxPay Scenario.A 2 Scenario.usdc Scenario.meddling] in
  invoice_at m3 1 =
    {| freelancer := Scenario.A; client := Scenario.B; amount := 500000000;
       dueDate := 86400; isPaid := true; invoiceURI := "ipfs://QmExample" |} /\
  (forall ext sender token',
     payInvoice ext sender 1 token' m3 = (Reverted AlreadyPaid, [])) /\
  (forall sender token' w', apply m3 (TxPay sender 1 token' w') = m3).
Proof.
  apply (registered_invoice_is_paid_for_good genesis Scenario.A Scenario.B
           Scenario.usdc 500000000 86400 "ipfs://QmExample" Scenario.honest
           (marked (apply genesis
                      (TxRegister Scenario.A 500000000 86400 "ipfs://QmExample"))
                   Scenario.B 1) []).
  - exists []. reflexivity.
  - reflexivity.
  - reflexivity.
  - reflexivity.
Defined.

(** X8. The landing page's carousel: whatever the order of interval ticks
    and out-of-view resets, [activeStep] is a valid index into the three
    steps; leaving the view puts it back to 0; and from the start [n] ticks
    highlight step [n mod 3], so the steps light up in order, round and
    round. *)
Theorem activeStep_is_a_valid_cycling_index (signals : list Landing.Signal) (n : nat) :
  (Landing.activeStep signals < Landing.steps_length)%nat /\
  Landing.activeStep (signals ++ [Landing.OutOfView]) = 0%nat /\
  Landing.activeStep (repeat Landing.Tick n) = (n mod Landing.steps_length)%nat /\
  Landing.activeStep (signals ++ repeat Landing.Tick Landing.steps_length)
    = Landing.activeStep signals.
Proof.
  assert (H0 : (0 < Landing.steps_length)%nat) by (unfold Landing.steps_length; lia).
  pose proof (landing_in_range signals 0%nat H0) as Hr.
  unfold Landing.activeStep in *. split; [exact Hr|]. split; [|split].
  - now rewrite fold_left_app.
  - now rewrite landing_ticks.
  - rewrite fold_left_app, landing_ticks by exact Hr.
    rewrite <- Nat.Div0.add_mod_idemp_r, Nat.Div0.mod_same, Nat.add_0_r.
    now apply Nat.mod_small.
Qed.

(** X9. History is kept over any sequence of further transactions from a
    reachable state: the counter does not go down, the log only grows at
    its end, every record is still there with the terms it was registered
    with, and a record that was paid is unchanged in every member. *)
Theorem history_is_kept (m : Machine) (txs : list Tx) :
  reachable m ->
  let m' := continue m txs in
  invoiceCount m <= invoiceCount m' /\
  (exists l, logs m' = logs m ++ l) /\
  (forall id inv,
     invoices m !! id = Some inv ->
     exists inv', invoices m' !! id = Some inv' /\ same_terms inv' inv /\
                  (isPaid inv = true -> inv' = inv)).
Proof.
  intros Hreach m'.
  destruct (evolves_continue txs m (reachable_WF _ Hreach)) as [Hc Hr _ Hl].
  auto.
Qed.

Lemma history_is_kept_witness :
  let m := Scenario.paid_invoice in
  let m' := continue m [TxRegister Scenario.B 1 2 "";
                        TxPay Scenario.A 1 Scenario.usdc Scenario.honest;
                        TxPay Scenario.A 2 Scenario.usdc Scenario.meddling] in
  invoiceCount m = 1 /\ invoiceCount m' = 3 /\
  invoiceCount m <= invoiceCount m' /\
  (exists l, logs m' = logs m ++ l) /\
  (forall id inv,
     invoices m !! id = Some inv ->
     exists inv', invoices m' !! id = Some inv' /\ same_terms inv' inv /\
                  (isPaid inv = true -> inv' = inv)).
Proof.
  intros m m'. split; [reflexivity|]. split; [reflexivity|].
  apply (history_is_kept m).
  exists [TxRegister Scenario.A 500000000 86400 "ipfs://QmExample";
          TxPay Scenario.B 1 Scenario.usdc Scenario.honest].
  reflexivity.
Defined.
